(** * FliteScript scope tree, symbol tables and substitution store

    A shallow embedding of [src/scope.ts]: the [Substitution] class, the
    scope tree with its two symbol tables, the fresh-name allocator and
    [dumpScope].  Scopes are mutable JavaScript objects that refer to each
    other through [parent] and [children]; they live here in a heap
    indexed by location, and every operation passes the state explicitly. *)

From stdpp Require Import gmap strings list fin_maps pretty.

Local Open Scope string_scope.
Local Open Scope list_scope.

(** ** Type expressions *)

Inductive NativeKind := KindString | KindNumber | KindBoolean.

Definition kind_name (k : NativeKind) : string :=
  match k with
  | KindString => "string"
  | KindNumber => "number"
  | KindBoolean => "boolean"
  end.

(** Modelled from the spec: [nodes.ts], which declares [TypeExpression],
    is not part of the sources at hand.  The spec gives a tagged value
    with a native variant that has a [kind] and no name, a type variable
    that always has a [name], and further variants that may or may not
    carry a [name]. *)
Inductive TypeExpression :=
  | NativeType (kind : NativeKind)
  | InferenceRequired (name : string)
  | OtherNode (tag : string) (name : option string).

Abbreviation ConstraintType := TypeExpression (only parsing).
Abbreviation Constraint := (TypeExpression * TypeExpression)%type (only parsing).

Global Instance NativeKind_eq_dec : EqDecision NativeKind.
Proof. solve_decision. Defined.
Global Instance TypeExpression_eq_dec : EqDecision TypeExpression.
Proof. solve_decision. Defined.

(** [if ("name" in typeExpression) return typeExpression.name; return undefined] *)
Definition _getTypeExpressionName (typeExpression : TypeExpression) : option string :=
  match typeExpression with
  | NativeType _ => None
  | InferenceRequired name => Some name
  | OtherNode _ name => name
  end.

(** ** JavaScript [Map] objects and the [Substitution] subclass *)

(** A key handed to [set], [get] or [has] is a string or a type-expression
    object.  Objects are compared by reference, so one carries its
    address next to its content. *)
Inductive MapKey :=
  | KeyStr (s : string)
  | KeyObj (ref : N) (e : TypeExpression).

(** Key comparison of a [Map] (SameValueZero). *)
Definition same_key (a b : MapKey) : bool :=
  match a, b with
  | KeyStr s, KeyStr s' => bool_decide (s = s')
  | KeyObj r _, KeyObj r' _ => bool_decide (r = r')
  | _, _ => false
  end.

(** Which prototype the object was constructed with decides the methods
    a call [m.set(..)] reaches. *)
Inductive MapClass := MapProto | SubstitutionProto.

(** A map object holds its entries in an internal slot ([map_data], in
    insertion order); its own enumerable properties ([own_props]) are a
    separate thing, and no method of [Map] touches them. *)
Record MapObject := {
  map_class : MapClass;
  own_props : gmap string TypeExpression;
  map_data : list (MapKey * TypeExpression)
}.

Definition new_Map : MapObject :=
  {| map_class := MapProto; own_props := ∅; map_data := [] |}.
Definition new_Substitution : MapObject :=
  {| map_class := SubstitutionProto; own_props := ∅; map_data := [] |}.

Fixpoint data_set (key : MapKey) (v : TypeExpression)
    (data : list (MapKey * TypeExpression)) : list (MapKey * TypeExpression) :=
  match data with
  | [] => [(key, v)]
  | (k, w) :: rest =>
      if same_key k key then (k, v) :: rest else (k, w) :: data_set key v rest
  end.

Fixpoint data_get (key : MapKey) (data : list (MapKey * TypeExpression))
    : option TypeExpression :=
  match data with
  | [] => None
  | (k, w) :: rest => if same_key k key then Some w else data_get key rest
  end.

Definition with_data (m : MapObject) (d : list (MapKey * TypeExpression)) : MapObject :=
  {| map_class := map_class m; own_props := own_props m; map_data := d |}.

(** [Map.prototype.set], [get] and [has]. *)
Definition Map_set (key : MapKey) (v : TypeExpression) (m : MapObject) : MapObject :=
  with_data m (data_set key v (map_data m)).
Definition Map_get (key : MapKey) (m : MapObject) : option TypeExpression :=
  data_get key (map_data m).
Definition Map_has (key : MapKey) (m : MapObject) : bool :=
  bool_decide (is_Some (data_get key (map_data m))).

(** [typeof key !== "string" ? _getTypeExpressionName(key) : key] *)
Definition finalKey (key : MapKey) : option string :=
  match key with
  | KeyStr s => Some s
  | KeyObj _ e => _getTypeExpressionName e
  end.

(** [!finalKey] on a [string | undefined]: [undefined] and the empty
    string are the falsy ones. *)
Definition falsy (k : option string) : bool :=
  match k with
  | None => true
  | Some s => bool_decide (s = "")
  end.

(** What [console.log] received: the format string and its argument. *)
Definition LogLine : Type := string * MapKey.

Definition Substitution_set (key : MapKey) (v : TypeExpression) (this : MapObject)
    : MapObject * list LogLine :=
  let fk := finalKey key in
  if falsy fk then (this, [("cannot use %o as a key in Substitution", key)])
  else (Map_set (KeyStr (default "" fk)) v this, []).

Definition Substitution_get (key : MapKey) (this : MapObject) : option TypeExpression :=
  let fk := finalKey key in
  if falsy fk then None else Map_get (KeyStr (default "" fk)) this.

Definition Substitution_has (key : MapKey) (this : MapObject) : bool :=
  let fk := finalKey key in
  if falsy fk then false else Map_has (KeyStr (default "" fk)) this.

(** Method calls [m.set(k, v)], [m.get(k)], [m.has(k)] on an object whose
    static type is [Substitution]: the object's own prototype decides. *)
Definition call_set (key : MapKey) (v : TypeExpression) (m : MapObject)
    : MapObject * list LogLine :=
  match map_class m with
  | MapProto => (Map_set key v m, [])
  | SubstitutionProto => Substitution_set key v m
  end.
Definition call_get (key : MapKey) (m : MapObject) : option TypeExpression :=
  match map_class m with
  | MapProto => Map_get key m
  | SubstitutionProto => Substitution_get key m
  end.
Definition call_has (key : MapKey) (m : MapObject) : bool :=
  match map_class m with
  | MapProto => Map_has key m
  | SubstitutionProto => Substitution_has key m
  end.

(** ** Plain objects used as tables

    [scope.value] and [scope.type] are object literals, so their
    prototype is [Object.prototype].  The own properties are a finite map;
    [name in o] and [o[name]] also see what the prototype provides. *)

Definition Object_prototype_keys : list string :=
  [ "constructor"; "__defineGetter__"; "__defineSetter__"; "hasOwnProperty";
    "__lookupGetter__"; "__lookupSetter__"; "isPrototypeOf";
    "propertyIsEnumerable"; "toString"; "valueOf"; "__proto__";
    "toLocaleString" ].

(** The result of reading [o[name]] when it is not [undefined]: an own
    property, or the member of [Object.prototype] of that name (a
    function, or the prototype object itself for [__proto__]; all of them
    truthy). *)
Inductive Property (V : Type) :=
  | Own (v : V)
  | Inherited (key : string).
Arguments Own {V} v.
Arguments Inherited {V} key.

(** [name in o] *)
Definition js_in {V} (name : string) (o : gmap string V) : bool :=
  bool_decide (is_Some (o !! name)) || bool_decide (name ∈ Object_prototype_keys).

(** [o[name]]; [None] is [undefined]. *)
Definition js_get {V} (name : string) (o : gmap string V) : option (Property V) :=
  match o !! name with
  | Some v => Some (Own v)
  | None =>
      if bool_decide (name ∈ Object_prototype_keys) then Some (Inherited name)
      else None
  end.

(** [Object.entries] of a table (the order of the entries is left
    abstract) and [Object.fromEntries], where a later entry wins. *)
Definition Object_entries {V} (o : gmap string V) : list (string * V) :=
  map_to_list o.
Definition Object_fromEntries {V} (entries : list (string * V)) : gmap string V :=
  foldl (λ acc kv, <[kv.1 := kv.2]> acc) ∅ entries.

(** ** Scopes and symbols *)

Abbreviation loc := nat (only parsing).

Record ValueSymbol := {
  vs_name : string;
  vs_type : TypeExpression;
  vs_scope : loc
}.

(** [createTypeSymbol] takes its [type] as an optional argument. *)
Record TypeSymbol := {
  ts_name : string;
  ts_type : option TypeExpression;
  ts_scope : loc
}.

Record Scope := {
  value : gmap string ValueSymbol;
  children : list loc;
  parent : option loc;
  type : gmap string TypeSymbol;
  constraints : list (TypeExpression * TypeExpression);
  substitutions : MapObject
}.

Global Instance ValueSymbol_eq_dec : EqDecision ValueSymbol.
Proof. solve_decision. Defined.
Global Instance TypeSymbol_eq_dec : EqDecision TypeSymbol.
Proof. solve_decision. Defined.

(** The module state: the heap of scope objects and the counters
    [nameIds].  The counters are JavaScript numbers.  They start at 0 and
    only [+= 1] writes them, so they hold integers between 0 and 2^53
    (see [increment] and [nameIds_in_range]); a field of [NameIds] is
    that integer. *)
Record NameIds := { t : N; fn : N }.

(** 2^53, the first integer whose successor is not a JavaScript number. *)
Definition number_limit : N := 9007199254740992.

(** [c + 1] on a JavaScript number that holds an integer of the range
    0..2^53: exact below 2^53, and at 2^53 the sum 2^53 + 1 rounds back
    to 2^53. *)
Definition increment (c : N) : N :=
  if (c <? number_limit)%N then (c + 1)%N else c.

Record State := {
  heap : list Scope;
  nameIds : NameIds
}.

Definition initial_state : State :=
  {| heap := []; nameIds := {| t := 0; fn := 0 |} |}.

(** ** A state and exception monad for the operations *)

(** [Stuck] stands for a run that has no JavaScript counterpart in a
    heap built by this module: a reference to a scope that was never
    allocated, or a [parent] chain that does not end. *)
Inductive Outcome (A : Type) :=
  | Returned (a : A)
  | Thrown (message : string)
  | Stuck.
Arguments Returned {A} a.
Arguments Thrown {A} message.
Arguments Stuck {A}.

Definition Run (A : Type) : Type := State → Outcome A * State.

Definition ret {A} (a : A) : Run A := λ st, (Returned a, st).
Definition throw {A} (message : string) : Run A := λ st, (Thrown message, st).
Definition bind {A B} (c : Run A) (k : A → Run B) : Run B :=
  λ st, match c st with
        | (Returned a, st') => k a st'
        | (Thrown message, st') => (Thrown message, st')
        | (Stuck, st') => (Stuck, st')
        end.
Definition get_heap : Run (list Scope) := λ st, (Returned (heap st), st).
Definition put_heap (h : list Scope) : Run unit :=
  λ st, (Returned tt, {| heap := h; nameIds := nameIds st |}).
Definition lift_option {A} (o : option A) : Run A :=
  λ st, match o with Some a => (Returned a, st) | None => (Stuck, st) end.

Declare Scope run_scope.
Delimit Scope run_scope with run.
Notation "'let*' x := c 'in' k" := (bind c (λ x, k))
  (at level 10, x name, c at level 100, k at level 200) : run_scope.
Notation "c ;;; k" := (bind c (λ _, k))
  (at level 100, k at level 200, right associativity) : run_scope.

(** ** Lookup

    The recursion of the source follows [parent] links, which is not
    structural on a heap; the walk takes fuel, and the outer [None] is a
    walk that ran out of it or met a dangling location.  In a
    well-formed heap neither happens (see [chain_find_found_iff]). *)

Fixpoint findValueSymbol_rec (fuel : nat) (name : string) (scope : loc)
    (h : list Scope) : option (option (Property ValueSymbol)) :=
  match fuel with
  | O => None
  | S fuel' =>
      match h !! scope with
      | None => None
      | Some sc =>
          if js_in name (value sc) then Some (js_get name (value sc))
          else match parent sc with
               | Some p => findValueSymbol_rec fuel' name p h
               | None => Some None
               end
      end
  end.

Fixpoint findTypeSymbol_rec (fuel : nat) (name : string) (scope : loc)
    (h : list Scope) : option (option (Property TypeSymbol)) :=
  match fuel with
  | O => None
  | S fuel' =>
      match h !! scope with
      | None => None
      | Some sc =>
          if js_in name (type sc) then Some (js_get name (type sc))
          else match parent sc with
               | Some p => findTypeSymbol_rec fuel' name p h
               | None => Some None
               end
      end
  end.

(** A parent chain in a heap of [n] scopes visits at most [n] of them. *)
Definition findValueSymbol (name : string) (scope : loc) (h : list Scope)
    : option (option (Property ValueSymbol)) :=
  findValueSymbol_rec (length h) name scope h.
Definition findTypeSymbol (name : string) (scope : loc) (h : list Scope)
    : option (option (Property TypeSymbol)) :=
  findTypeSymbol_rec (length h) name scope h.

(** ** Construction *)

Definition createNativeTypeSymbol (name : NativeKind) (scope : loc) : TypeSymbol :=
  {| ts_name := kind_name name;
     ts_scope := scope;
     ts_type := Some (NativeType name) |}.

Definition with_type (sc : Scope) (ty : gmap string TypeSymbol) : Scope :=
  {| value := value sc; children := children sc; parent := parent sc;
     type := ty; constraints := constraints sc;
     substitutions := substitutions sc |}.
Definition with_value (sc : Scope) (v : gmap string ValueSymbol) : Scope :=
  {| value := v; children := children sc; parent := parent sc;
     type := type sc; constraints := constraints sc;
     substitutions := substitutions sc |}.
Definition with_children (sc : Scope) (cs : list loc) : Scope :=
  {| value := value sc; children := cs; parent := parent sc;
     type := type sc; constraints := constraints sc;
     substitutions := substitutions sc |}.

Local Open Scope run_scope.

Definition createRootScope : Run loc :=
  let* h := get_heap in
  let rootScope := length h in
  let fresh :=
    {| parent := None; children := []; value := ∅; type := ∅;
       constraints := []; substitutions := new_Map |} in
  let types : gmap string TypeSymbol :=
    <["boolean" := createNativeTypeSymbol KindBoolean rootScope]>
    (<["number" := createNativeTypeSymbol KindNumber rootScope]>
    (<["string" := createNativeTypeSymbol KindString rootScope]> ∅)) in
  put_heap (h ++ [with_type fresh types]) ;;;
  ret rootScope.

Definition createScope (parent : option loc) : Run loc :=
  let* h := get_heap in
  let scope := length h in
  let fresh :=
    {| children := []; parent := parent; type := ∅; value := ∅;
       constraints := []; substitutions := new_Map |} in
  let h1 := h ++ [fresh] in
  let h2 :=
    match parent with
    | Some p => alter (λ sc, with_children sc (children sc ++ [scope])) p h1
    | None => h1
    end in
  put_heap h2 ;;;
  ret scope.

Definition dquote : string := String (Ascii.ascii_of_nat 34) "".
Definition redeclare_message (name : string) : string :=
  "Cannot redeclare variable " +:+ dquote +:+ name +:+ dquote.

(** The assignment [scope.value[name] = symbol] is only reached when the
    lookup found nothing, hence for a name that [Object.prototype] does
    not provide: it creates or overwrites an own property. *)
Definition createValueSymbol (name : string) (scope : loc) (ty : TypeExpression)
    : Run ValueSymbol :=
  let* h := get_heap in
  let* exists_ := lift_option (findValueSymbol name scope h) in
  match exists_ with
  | Some _ => throw (redeclare_message name)
  | None =>
      let symbol := {| vs_name := name; vs_type := ty; vs_scope := scope |} in
      put_heap (alter (λ sc, with_value sc (<[name := symbol]> (value sc))) scope h) ;;;
      ret symbol
  end.

Definition createTypeSymbol (name : string) (scope : loc) (ty : option TypeExpression)
    : Run TypeSymbol :=
  let* h := get_heap in
  let* exists_ := lift_option (findTypeSymbol name scope h) in
  match exists_ with
  | Some _ => throw (redeclare_message name)
  | None =>
      let symbol := {| ts_name := name; ts_type := ty; ts_scope := scope |} in
      put_heap (alter (λ sc, with_type sc (<[name := symbol]> (type sc))) scope h) ;;;
      ret symbol
  end.

(** ** Fresh names *)

Inductive Prefix := prefix_t | prefix_fn.

Global Instance Prefix_eq_dec : EqDecision Prefix.
Proof. solve_decision. Defined.

Definition prefix_string (p : Prefix) : string :=
  match p with prefix_t => "t" | prefix_fn => "fn" end.
Definition counter (p : Prefix) (ids : NameIds) : N :=
  match p with prefix_t => t ids | prefix_fn => fn ids end.
(** [nameIds[prefix] += 1] *)
Definition bump (p : Prefix) (ids : NameIds) : NameIds :=
  match p with
  | prefix_t => {| t := increment (t ids); fn := fn ids |}
  | prefix_fn => {| t := t ids; fn := increment (fn ids) |}
  end.

(** The parameter defaults to ["t"] when the caller passes nothing.  The
    template string prints the counter in decimal, as [pretty] does (a
    number below 10^21 is printed with all its digits). *)
Definition findAvailableName (prefix : option Prefix) : Run string :=
  λ st,
    let prefix := default prefix_t prefix in
    let name := prefix_string prefix +:+ pretty (counter prefix (nameIds st)) in
    (Returned name, {| heap := heap st; nameIds := bump prefix (nameIds st) |}).

Definition createTypeVariable (scope : loc) : Run TypeExpression :=
  let* name := findAvailableName None in
  let typeExpr := InferenceRequired name in
  createTypeSymbol name scope (Some typeExpr) ;;;
  ret typeExpr.

(** [calls n prefix]: [n] successive calls of the allocator, collecting
    the names they return. *)
Fixpoint calls (n : nat) (prefix : option Prefix) : Run (list string) :=
  match n with
  | O => ret []
  | S n' =>
      let* name := findAvailableName prefix in
      let* rest := calls n' prefix in
      ret (name :: rest)
  end.

Fixpoint bump_n (n : nat) (p : Prefix) (ids : NameIds) : NameIds :=
  match n with
  | O => ids
  | S n' => bump_n n' p (bump p ids)
  end.

Definition name_at (p : Prefix) (c : N) (i : nat) : string :=
  prefix_string p +:+ pretty (c + N.of_nat i)%N.

(** What a client such as the solver does with a scope's store:
    [scope.substitutions.set(key, value)]. *)
Definition with_substitutions (sc : Scope) (m : MapObject) : Scope :=
  {| value := value sc; children := children sc; parent := parent sc;
     type := type sc; constraints := constraints sc; substitutions := m |}.
Definition scope_substitutions_set (scope : loc) (key : MapKey) (v : TypeExpression)
    : Run unit :=
  let* h := get_heap in
  put_heap
    (alter (λ sc, with_substitutions sc (call_set key v (substitutions sc)).1) scope h).

(** ** Dumping *)

Section Dump.
(** [dumpNode] comes from [ast.ts], which is not part of the sources at
    hand: it is taken as given.  It receives a symbol's [type], which
    can be [undefined] for a type symbol. *)
Context {D : Type} (dumpNode : option TypeExpression → D).

Record DumpedSymbol := {
  d_name : string;
  d_type : D;
  d_scope : string
}.

#[local] Unset Elimination Schemes.
Inductive Dump :=
  | DumpArray (items : list Dump)
  | DumpObject (d_parent : string)
      (d_value : gmap string DumpedSymbol)
      (d_types : gmap string DumpedSymbol)
      (d_constraints : list (D * D))
      (d_substitutions : gmap string D)
      (d_children : list Dump).
#[local] Set Elimination Schemes.

Definition dump_substitutions (d : Dump) : option (gmap string D) :=
  match d with
  | DumpArray _ => None
  | DumpObject _ _ _ _ s _ => Some s
  end.

(** The argument is one scope or an array of scopes. *)
Fixpoint dumpScope_rec (fuel : nat) (scope : loc + list loc) (h : list Scope)
    : option Dump :=
  match fuel with
  | O => None
  | S fuel' =>
      match scope with
      | inr scopes =>
          DumpArray <$> mapM (λ s, dumpScope_rec fuel' (inl s) h) scopes
      | inl l =>
          sc ← h !! l;
          let valueEntries :=
            (λ e : string * ValueSymbol,
               (e.1, {| d_name := vs_name e.2;
                        d_type := dumpNode (Some (vs_type e.2));
                        d_scope := "[omitted]" |}))
              <$> Object_entries (value sc) in
          let typeEntries :=
            (λ e : string * TypeSymbol,
               (e.1, {| d_name := ts_name e.2;
                        d_type := dumpNode (ts_type e.2);
                        d_scope := "[omitted]" |}))
              <$> Object_entries (type sc) in
          let substitutionsEntries :=
            (λ e : string * TypeExpression, (e.1, dumpNode (Some e.2)))
              <$> Object_entries (own_props (substitutions sc)) in
          kids ← mapM (λ cs, dumpScope_rec fuel' (inl cs) h) (children sc);
          Some (DumpObject
                  (match parent sc with Some _ => "[omitted]" | None => "[]" end)
                  (Object_fromEntries valueEntries)
                  (Object_fromEntries typeEntries)
                  ((λ c : TypeExpression * TypeExpression,
                      (dumpNode (Some c.1), dumpNode (Some c.2)))
                     <$> constraints sc)
                  (Object_fromEntries substitutionsEntries)
                  kids)
      end
  end.

(** Below an array the nesting is at most one scope per heap cell. *)
Definition dumpScope (scope : loc + list loc) (h : list Scope) : option Dump :=
  dumpScope_rec (S (length h)) scope h.
End Dump.

(** ** Well-formed heaps

    A scope is allocated after the scope it names as its parent, so a
    parent has the smaller location.  Every heap the operations build
    from [initial_state] is of this shape. *)

Fixpoint wf_from (base : nat) (h : list Scope) : bool :=
  match h with
  | [] => true
  | sc :: rest =>
      match parent sc with
      | Some p => bool_decide (p < base)
      | None => true
      end && wf_from (S base) rest
  end.

Definition wf_heap (h : list Scope) : Prop := wf_from 0 h = true.

(** [a] is [l] or one of its ancestors. *)
Inductive ancestor_or_self (h : list Scope) : loc → loc → Prop :=
  | aos_self l : ancestor_or_self h l l
  | aos_parent l sc p a :
      h !! l = Some sc → parent sc = Some p →
      ancestor_or_self h p a → ancestor_or_self h l a.

(** ** The lookup walk, once for both tables *)

(** [findValueSymbol_rec] and [findTypeSymbol_rec] are the same walk over
    two different tables; [chain_find] is that walk for any table. *)
Fixpoint chain_find {V} (tbl : Scope → gmap string V) (fuel : nat) (name : string)
    (scope : loc) (h : list Scope) : option (option (Property V)) :=
  match fuel with
  | O => None
  | S fuel' =>
      match h !! scope with
      | None => None
      | Some sc =>
          if js_in name (tbl sc) then Some (js_get name (tbl sc))
          else match parent sc with
               | Some p => chain_find tbl fuel' name p h
               | None => Some None
               end
      end
  end.

(** [nearest tbl h name l a v]: walking up from [l], the first scope whose
    table declares [name] is [a], and it binds [name] to [v]. *)
Inductive nearest {V} (tbl : Scope → gmap string V) (h : list Scope) (name : string)
    : loc → loc → V → Prop :=
  | nearest_here l sc v :
      h !! l = Some sc → tbl sc !! name = Some v → nearest tbl h name l l v
  | nearest_up l sc p a v :
      h !! l = Some sc → tbl sc !! name = None → parent sc = Some p →
      nearest tbl h name p a v → nearest tbl h name l a v.

(** [name] is declared in the table of [scope] or of one of its ancestors. *)
Definition bound {V} (tbl : Scope → gmap string V) (h : list Scope) (name : string)
    (scope : loc) : Prop :=
  ∃ a sc, ancestor_or_self h scope a ∧ h !! a = Some sc ∧ is_Some (tbl sc !! name).

Definition value_bound : list Scope → string → loc → Prop := bound value.
Definition type_bound : list Scope → string → loc → Prop := bound type.

(** ** States for the examples *)

(** The state in which the counterexamples of this file are run: a root
    scope and nothing else. *)
Definition root_only : State := (createRootScope initial_state).2.

(** The example of the spec: a root scope, a scope [a] below it, and a
    value [x] of type number declared in [a]. *)
Definition scenario : State :=
  ((let* root := createRootScope in
    let* a := createScope (Some root) in
    createValueSymbol "x" a (NativeType KindNumber)) initial_state).2.

(** A root scope in which a type named [t0] has been declared. *)
Definition t0_taken : State := (createTypeSymbol "t0" 0 None root_only).2.

(** ** Walking the parent chain *)

(** [on_chain fuel h l a]: walking up from [l], the scope [a] is met. *)
Fixpoint on_chain (fuel : nat) (h : list Scope) (l a : loc) : bool :=
  match fuel with
  | O => false
  | S fuel' =>
      bool_decide (l = a)
      || match h !! l with
         | Some sc =>
             match parent sc with
             | Some p => on_chain fuel' h p a
             | None => false
             end
         | None => false
         end
  end.

(** A root scope with two scopes right below it. *)
Definition two_children : State :=
  ((let* root := createRootScope in
    let* a := createScope (Some root) in
    createScope (Some root)) initial_state).2.

(** ** Heaps in which [parent] and [children] agree *)

Fixpoint forall_from (P : nat → Scope → bool) (base : nat) (h : list Scope) : bool :=
  match h with
  | [] => true
  | sc :: rest => P base sc && forall_from P (S base) rest
  end.

(** The scope at [l] is listed among the children of its parent. *)
Definition parent_linked (h : list Scope) (l : nat) (sc : Scope) : bool :=
  match parent sc with
  | None => true
  | Some p =>
      match h !! p with
      | Some psc => bool_decide (l ∈ children psc)
      | None => false
      end
  end.

(** The children of the scope at [l] are listed once each, and each of
    them names [l] as its parent. *)
Definition children_linked (h : list Scope) (l : nat) (sc : Scope) : bool :=
  bool_decide (NoDup (children sc))
  && forallb (λ c, match h !! c with
                   | Some csc => bool_decide (parent csc = Some l)
                   | None => false
                   end) (children sc).

Definition linked (h : list Scope) : Prop :=
  forall_from (λ l sc, parent_linked h l sc && children_linked h l sc) 0 h = true.

(** The shape of every heap the operations build: parents are allocated
    before their children and the two links agree. *)
Definition tree_heap (h : list Scope) : Prop := wf_heap h ∧ linked h.

(** The links of a scope. *)
Definition shape (sc : Scope) : option nat * list nat := (parent sc, children sc).

(** ** Sequences of calls *)

(** One allocator call per element of [prefixes], in order. *)
Fixpoint calls_mixed (prefixes : list (option Prefix)) : Run (list string) :=
  match prefixes with
  | [] => ret []
  | prefix :: rest =>
      let* name := findAvailableName prefix in
      let* names := calls_mixed rest in
      ret (name :: names)
  end.

(** [set] after [set] on one store, in the order of [ops]. *)
Definition Substitution_sets (ops : list (MapKey * TypeExpression)) (m : MapObject)
    : MapObject :=
  foldl (λ acc op, (Substitution_set op.1 op.2 acc).1) m ops.

(** [n] type variables made one after the other in one scope. *)
Fixpoint createTypeVariables (n : nat) (scope : loc) : Run (list TypeExpression) :=
  match n with
  | O => ret []
  | S n' =>
      let* typeExpr := createTypeVariable scope in
      let* rest := createTypeVariables n' scope in
      ret (typeExpr :: rest)
  end.

(** How many calls of [prefixes] ask for the prefix [p]. *)
Fixpoint count_prefix (p : Prefix) (prefixes : list (option Prefix)) : nat :=
  match prefixes with
  | [] => 0
  | q :: rest =>
      (if decide (default prefix_t q = p) then 1 else 0) + count_prefix p rest
  end.

(** [name] is made of a prefix that [prefixes] asks for and of a counter
    value that the allocator has not handed out yet. *)
Definition still_free (ids : NameIds) (prefixes : list (option Prefix))
    (name : string) : Prop :=
  ∃ p c, name = prefix_string p +:+ pretty c
         ∧ (counter p ids ≤ c)%N ∧ 0 < count_prefix p prefixes.

(** The value of the last operation of [ops] whose key normalizes to the
    name [n]. *)
Definition last_write (n : string) (ops : list (MapKey * TypeExpression))
    : option TypeExpression :=
  foldl (λ acc op, if decide (finalKey op.1 = Some n) then Some op.2 else acc)
        None ops.

(** The symbol [createTypeVariable] registers for a name. *)
Definition type_variable_symbol (scope : nat) (name : string) : TypeSymbol :=
  {| ts_name := name; ts_type := Some (InferenceRequired name); ts_scope := scope |}.

(** ** How a scope may change *)

(** [sc'] is [sc] with, at most, more symbols and more children. *)
Definition grows (sc sc' : Scope) : Prop :=
  value sc ⊆ value sc'
  ∧ type sc ⊆ type sc'
  ∧ children sc `prefix_of` children sc'
  ∧ parent sc' = parent sc
  ∧ constraints sc' = constraints sc
  ∧ substitutions sc' = substitutions sc.

(** * Properties *)

(** ** The map data *)

Lemma same_key_refl k : same_key k k = true.
Proof. destruct k; simpl; by apply bool_decide_eq_true. Qed.

Lemma data_get_set_same key v data : data_get key (data_set key v data) = Some v.
Proof.
  induction data as [|[k w] rest IH]; simpl.
  - by rewrite same_key_refl.
  - destruct (same_key k key) eqn:E; simpl; rewrite E; [done | exact IH].
Qed.

Lemma Map_get_set_same key v m : Map_get key (Map_set key v m) = Some v.
Proof. apply data_get_set_same. Qed.

Lemma Map_has_set_same key v m : Map_has key (Map_set key v m) = true.
Proof.
  unfold Map_has, Map_set; simpl. rewrite data_get_set_same.
  by apply bool_decide_eq_true.
Qed.

Lemma falsy_named n : n ≠ "" → falsy (Some n) = false.
Proof. intros Hn. simpl. by apply bool_decide_eq_false. Qed.

(** No method changes the own properties of the map object. *)
Lemma call_set_own_props key v m : own_props (call_set key v m).1 = own_props m.
Proof.
  unfold call_set, Substitution_set.
  destruct (map_class m); [done|]. by destruct (falsy _).
Qed.

(** ** The [Substitution] class *)

(** C6 (as amended): for a type expression [k] that carries a non-empty
    name [n], the key [k] and the string [n] are interchangeable: [set]
    under either one does the same, [get] and [has] under either one
    answer the same, and what was stored under one is read back under the
    other.  A type expression whose name is the empty string is treated
    like a key without a name, on every store: [set] under the
    expression or under the string [""] leaves the store as it is and
    logs one line, [get] answers [undefined] and [has] answers [false]. *)
Theorem Substitution_key_normalization
    (r : N) (k : TypeExpression) (n : string) (v : TypeExpression) (m : MapObject) :
  _getTypeExpressionName k = Some n →
  (n ≠ "" →
   Substitution_get (KeyStr n) (Substitution_set (KeyObj r k) v m).1 = Some v
   ∧ Substitution_get (KeyObj r k) (Substitution_set (KeyStr n) v m).1 = Some v
   ∧ Substitution_has (KeyStr n) (Substitution_set (KeyObj r k) v m).1 = true
   ∧ Substitution_has (KeyObj r k) (Substitution_set (KeyStr n) v m).1 = true
   ∧ Substitution_set (KeyObj r k) v m = Substitution_set (KeyStr n) v m
   ∧ Substitution_get (KeyObj r k) m = Substitution_get (KeyStr n) m
   ∧ Substitution_has (KeyObj r k) m = Substitution_has (KeyStr n) m)
  ∧ (n = "" →
     Substitution_set (KeyObj r k) v m
     = (m, [("cannot use %o as a key in Substitution", KeyObj r k)])
     ∧ Substitution_set (KeyStr n) v m
       = (m, [("cannot use %o as a key in Substitution", KeyStr n)])
     ∧ Substitution_get (KeyObj r k) m = None
     ∧ Substitution_get (KeyStr n) m = None
     ∧ Substitution_has (KeyObj r k) m = false
     ∧ Substitution_has (KeyStr n) m = false).
Proof.
  intros Hk. split.
  - intros Hn.
    unfold Substitution_get, Substitution_has, Substitution_set; simpl finalKey.
    rewrite Hk, (falsy_named n Hn); simpl.
    rewrite Map_get_set_same, Map_has_set_same. done.
  - intros ->.
    unfold Substitution_get, Substitution_has, Substitution_set; simpl finalKey.
    by rewrite Hk.
Qed.

Lemma Substitution_key_normalization_witness :
  let k := InferenceRequired "t3" in
  let v := NativeType KindNumber in
  Substitution_get (KeyStr "t3") (Substitution_set (KeyObj 7 k) v new_Substitution).1
  = Some v.
Proof.
  intros k v.
  destruct (Substitution_key_normalization 7 k "t3" v new_Substitution) as [Hnamed _].
  - reflexivity.
  - destruct Hnamed as [Hget _]; [by vm_compute | exact Hget].
Defined.

(** C6 (as stated) fails for a type expression that carries the empty
    name: the falsy test drops the key, nothing is stored, and neither
    direction reads the value back. *)
Lemma Substitution_empty_name_dropped :
  let k := InferenceRequired "" in
  let v := NativeType KindNumber in
  _getTypeExpressionName k = Some ""
  ∧ (Substitution_set (KeyObj 0 k) v new_Substitution).1 = new_Substitution
  ∧ Substitution_get (KeyStr "") (Substitution_set (KeyObj 0 k) v new_Substitution).1
    = None
  ∧ Substitution_get (KeyObj 0 k) (Substitution_set (KeyStr "") v new_Substitution).1
    = None.
Proof. by vm_compute. Qed.

(** C7: a key that carries no name makes [set] return the very same map
    (a line is logged, nothing is thrown), [get] answer [undefined] and
    [has] answer [false]. *)
Theorem Substitution_nameless_key
    (r : N) (k : TypeExpression) (v : TypeExpression) (m : MapObject) :
  _getTypeExpressionName k = None →
  Substitution_set (KeyObj r k) v m
  = (m, [("cannot use %o as a key in Substitution", KeyObj r k)])
  ∧ Substitution_get (KeyObj r k) m = None
  ∧ Substitution_has (KeyObj r k) m = false.
Proof.
  intros Hk.
  unfold Substitution_get, Substitution_has, Substitution_set; simpl finalKey.
  by rewrite Hk.
Qed.

Lemma Substitution_nameless_key_witness :
  let k := NativeType KindString in
  let m := (Substitution_set (KeyStr "t1") (NativeType KindNumber) new_Substitution).1 in
  Substitution_set (KeyObj 4 k) (NativeType KindBoolean) m
  = (m, [("cannot use %o as a key in Substitution", KeyObj 4 k)])
  ∧ Substitution_get (KeyObj 4 k) m = None
  ∧ Substitution_has (KeyObj 4 k) m = false.
Proof.
  intros k m.
  apply (Substitution_nameless_key 4 k (NativeType KindBoolean) m).
  reflexivity.
Defined.

(** ** Scope construction *)

Lemma createRootScope_run st :
  createRootScope st
  = (Returned (length (heap st)),
     {| heap := heap st ++
          [ {| parent := None; children := []; value := ∅;
               type :=
                 <["boolean" := createNativeTypeSymbol KindBoolean (length (heap st))]>
                 (<["number" := createNativeTypeSymbol KindNumber (length (heap st))]>
                 (<["string" := createNativeTypeSymbol KindString (length (heap st))]> ∅));
               constraints := []; substitutions := new_Map |} ];
        nameIds := nameIds st |}).
Proof. reflexivity. Qed.

Lemma createScope_run parent st :
  createScope parent st
  = (Returned (length (heap st)),
     {| heap :=
          let h1 := heap st ++
            [ {| children := []; parent := parent; type := ∅; value := ∅;
                 constraints := []; substitutions := new_Map |} ] in
          match parent with
          | Some p =>
              alter (λ sc, with_children sc (children sc ++ [length (heap st)])) p h1
          | None => h1
          end;
        nameIds := nameIds st |}).
Proof. reflexivity. Qed.

Lemma createScope_new_scope (par : option nat) st :
  ∃ sc, heap (createScope par st).2 !! length (heap st) = Some sc
        ∧ substitutions sc = new_Map
        ∧ value sc = ∅ ∧ type sc = ∅ ∧ constraints sc = []
        ∧ parent sc = par.
Proof.
  rewrite createScope_run; simpl.
  destruct par as [p|].
  - rewrite list_lookup_alter.
    case_decide; subst; rewrite list_lookup_middle by done; simpl; eauto 10.
  - rewrite list_lookup_middle by done. eauto 10.
Qed.

(** C3 (what the code does): both constructors build the store with
    [new Map()], so a scope's [substitutions] is a plain map.  A value
    stored under a type-expression object is then filed under the object
    itself and the name of that object reads nothing back, whatever
    the name is. *)
Theorem scope_substitutions_not_normalizing :
  (∀ st, ∃ sc, heap (createRootScope st).2 !! length (heap st) = Some sc
               ∧ substitutions sc = new_Map)
  ∧ (∀ par st, ∃ sc, heap (createScope par st).2 !! length (heap st) = Some sc
                     ∧ substitutions sc = new_Map)
  ∧ (∀ r k v n, call_get (KeyStr n) (call_set (KeyObj r k) v new_Map).1 = None)
  ∧ (∀ r k v n, call_get (KeyObj r k) (call_set (KeyStr n) v new_Map).1 = None).
Proof.
  split; [|split; [|split]].
  - intros st. rewrite createRootScope_run; simpl.
    rewrite list_lookup_middle by done. eauto.
  - intros par st.
    destruct (createScope_new_scope par st) as (sc & ? & ? & _). eauto.
  - done.
  - done.
Qed.

(** C5: [createRootScope] returns a new scope without a parent whose type
    table has exactly the keys [string], [number] and [boolean], each
    bound to the native type of that kind, and whose value table and
    constraint list are empty. *)
Theorem createRootScope_seeded (st : State) :
  ∃ sc,
    createRootScope st
    = (Returned (length (heap st)),
       {| heap := heap st ++ [sc]; nameIds := nameIds st |})
    ∧ parent sc = None
    ∧ dom (type sc) = {[ "string"; "number"; "boolean" ]}
    ∧ (∀ k, type sc !! kind_name k
            = Some {| ts_name := kind_name k;
                      ts_type := Some (NativeType k);
                      ts_scope := length (heap st) |})
    ∧ value sc = ∅
    ∧ constraints sc = [].
Proof.
  eexists. split; [apply createRootScope_run|].
  cbn [type parent value constraints].
  split; [reflexivity|]. split; [|split; [|done]].
  - rewrite !dom_insert_L, dom_empty_L. set_solver.
  - intros []; by simplify_map_eq.
Qed.

(** ** Fresh names *)

Lemma increment_below (c : N) : (c < number_limit)%N → increment c = (c + 1)%N.
Proof. intros Hc. unfold increment. by rewrite (proj2 (N.ltb_lt _ _) Hc). Qed.

Lemma increment_at_limit (c : N) : (number_limit ≤ c)%N → increment c = c.
Proof. intros Hc. unfold increment. by rewrite (proj2 (N.ltb_ge _ _) Hc). Qed.

Lemma increment_in_range (c : N) :
  (c ≤ number_limit)%N → (increment c ≤ number_limit)%N.
Proof.
  intros Hc. destruct (decide (c < number_limit)%N).
  - rewrite increment_below by done. lia.
  - rewrite increment_at_limit by lia. done.
Qed.

Lemma increment_mono (c : N) : (c ≤ increment c)%N.
Proof.
  destruct (decide (c < number_limit)%N).
  - rewrite increment_below by done. lia.
  - rewrite increment_at_limit by lia. done.
Qed.

Lemma counter_bump p ids : counter p (bump p ids) = increment (counter p ids).
Proof. by destruct p. Qed.

Lemma counter_bump_below p ids :
  (counter p ids < number_limit)%N →
  counter p (bump p ids) = (counter p ids + 1)%N.
Proof. intros Hc. rewrite counter_bump. by apply increment_below. Qed.

Lemma counter_bump_other p q ids : p ≠ q → counter q (bump p ids) = counter q ids.
Proof. by destruct p, q. Qed.

(** Both counters stay in the range 0..2^53: they start there and no
    call takes them out. *)
Lemma nameIds_in_range p q ids :
  (counter q ids ≤ number_limit)%N → (counter q (bump p ids) ≤ number_limit)%N.
Proof.
  intros Hc. destruct (decide (p = q)) as [->|Hne].
  - rewrite counter_bump. by apply increment_in_range.
  - by rewrite counter_bump_other.
Qed.

Global Instance name_at_inj p c : Inj (=) (=) (name_at p c).
Proof.
  intros i j Hij. unfold name_at in Hij.
  apply (inj (String.append _)) in Hij.
  apply (inj pretty) in Hij. lia.
Qed.

Lemma findAvailableName_run prefix st :
  let p := default prefix_t prefix in
  findAvailableName prefix st
  = (Returned (prefix_string p +:+ pretty (counter p (nameIds st))),
     {| heap := heap st; nameIds := bump p (nameIds st) |}).
Proof. reflexivity. Qed.

(** As long as the last counter value handed out is at most 2^53, the
    names of [n] calls in a row are those of [n] consecutive counter
    values. *)
Lemma calls_run n prefix st :
  let p := default prefix_t prefix in
  (counter p (nameIds st) + N.of_nat n ≤ number_limit + 1)%N →
  calls n prefix st
  = (Returned (name_at p (counter p (nameIds st)) <$> seq 0 n),
     {| heap := heap st; nameIds := bump_n n p (nameIds st) |}).
Proof.
  intros p. revert st. induction n as [|n IH]; intros st Hc.
  - by destruct st.
  - simpl calls. unfold bind at 1. rewrite findAvailableName_run. fold p.
    unfold bind at 1. rewrite IH; cbn [nameIds heap].
    + unfold ret; simpl. do 3 f_equal.
      * unfold name_at. by rewrite N.add_0_r.
      * destruct n as [|n]; [done|].
        rewrite counter_bump_below by lia.
        rewrite <- fmap_S_seq, <- list_fmap_compose.
        apply list_fmap_ext. intros _ i _. simpl. unfold name_at.
        do 2 f_equal. lia.
    + destruct (decide (counter p (nameIds st) < number_limit)%N).
      * rewrite counter_bump_below by done. lia.
      * rewrite counter_bump, increment_at_limit by lia. lia.
Qed.

(** C8 (as amended): the allocator returns the prefix followed by the
    decimal value of that prefix's counter and leaves the other counter
    alone; it adds one to the counter while the counter is below 2^53
    and leaves it unchanged once it is 2^53.  Both counters start at 0.
    [n] calls in a row with one prefix, started at counter value [c] with
    [c + n ≤ 2^53 + 1], return the [n] pairwise distinct names of the
    counter values [c], [c + 1], ..., [c + n - 1]; from the initial state
    these are [t0], [t1], ... *)
Theorem findAvailableName_fresh (n : nat) (p : Prefix) (st : State) :
  (counter p (nameIds st) + N.of_nat n ≤ number_limit + 1)%N →
  nameIds initial_state = {| t := 0; fn := 0 |}
  ∧ findAvailableName (Some p) st
    = (Returned (prefix_string p +:+ pretty (counter p (nameIds st))),
       {| heap := heap st; nameIds := bump p (nameIds st) |})
  ∧ ((counter p (nameIds st) < number_limit)%N →
     counter p (bump p (nameIds st)) = (counter p (nameIds st) + 1)%N)
  ∧ (counter p (nameIds st) = number_limit →
     counter p (bump p (nameIds st)) = number_limit)
  ∧ (∀ q, p ≠ q → counter q (bump p (nameIds st)) = counter q (nameIds st))
  ∧ (∃ st',
       calls n (Some p) st
       = (Returned (name_at p (counter p (nameIds st)) <$> seq 0 n), st'))
  ∧ length (name_at p (counter p (nameIds st)) <$> seq 0 n) = n
  ∧ NoDup (name_at p (counter p (nameIds st)) <$> seq 0 n)
  ∧ ((N.of_nat n ≤ number_limit + 1)%N →
     (calls n (Some prefix_t) initial_state).1
     = Returned ((λ i : nat, "t" +:+ pretty (N.of_nat i)) <$> seq 0 n)).
Proof.
  intros Hc. split; [done|]. split; [done|].
  split; [apply counter_bump_below|].
  split; [intros Heq; rewrite counter_bump, increment_at_limit; [done|lia]|].
  split; [intros q; apply counter_bump_other|].
  split; [eexists; by apply (calls_run n (Some p) st)|].
  split; [by rewrite length_fmap, length_seq|].
  split; [apply NoDup_fmap_2; [apply _ | apply NoDup_seq]|].
  intros Hn. by rewrite (calls_run n (Some prefix_t) initial_state).
Qed.

Lemma findAvailableName_fresh_witness :
  ∃ st', calls 3 (Some prefix_fn) scenario = (Returned ["fn0"; "fn1"; "fn2"], st').
Proof.
  destruct (findAvailableName_fresh 3 prefix_fn scenario)
    as (_ & _ & _ & _ & _ & Hcalls & _).
  - by vm_compute.
  - exact Hcalls.
Defined.

(** C8 (as stated) fails once a counter has reached 2^53: the call does
    not move the counter, and the next call returns the same name. *)
Lemma findAvailableName_repeats_at_limit :
  let st := {| heap := []; nameIds := {| t := number_limit; fn := 0 |} |} in
  findAvailableName (Some prefix_t) st = (Returned "t9007199254740992", st)
  ∧ calls 2 (Some prefix_t) st
    = (Returned ["t9007199254740992"; "t9007199254740992"], st).
Proof. by vm_compute. Qed.

(** ** Well-formed heaps and the lookup walk *)

Lemma wf_from_lookup base h i sc p :
  wf_from base h = true → h !! i = Some sc → parent sc = Some p → p < base + i.
Proof.
  revert base i. induction h as [|sc0 rest IH]; intros base i Hwf Hi Hp; [done|].
  simpl in Hwf. apply andb_true_iff in Hwf as [Hhd Htl].
  destruct i as [|i]; simpl in Hi.
  - injection Hi as ->. rewrite Hp in Hhd.
    apply bool_decide_eq_true in Hhd. lia.
  - specialize (IH (S base) i Htl Hi Hp). lia.
Qed.

Lemma wf_heap_parent h l sc p :
  wf_heap h → h !! l = Some sc → parent sc = Some p → p < l.
Proof. intros Hwf Hl Hp. apply (wf_from_lookup 0 h l sc p Hwf Hl Hp). Qed.

Lemma wf_from_app base h sc :
  wf_from base (h ++ [sc])
  = wf_from base h
    && match parent sc with
       | Some p => bool_decide (p < base + length h)
       | None => true
       end.
Proof.
  revert base. induction h as [|sc0 rest IH]; intros base; simpl.
  - rewrite Nat.add_0_r. by rewrite andb_true_r.
  - rewrite IH, <- andb_assoc. do 2 f_equal.
    destruct (parent sc); [|done]. apply bool_decide_ext. lia.
Qed.

Lemma wf_from_alter base h l (f : Scope → Scope) :
  (∀ sc, parent (f sc) = parent sc) →
  wf_from base (alter f l h) = wf_from base h.
Proof.
  intros Hf. revert base l. induction h as [|sc0 rest IH]; intros base l; [done|].
  destruct l as [|l]; simpl.
  - by rewrite Hf.
  - f_equal. apply IH.
Qed.

Lemma wf_heap_alter h l (f : Scope → Scope) :
  (∀ sc, parent (f sc) = parent sc) → wf_heap h → wf_heap (alter f l h).
Proof. intros Hf. unfold wf_heap. by rewrite wf_from_alter. Qed.

Lemma wf_heap_empty : wf_heap [].
Proof. reflexivity. Qed.

Lemma findValueSymbol_chain name l h :
  findValueSymbol name l h = chain_find value (length h) name l h.
Proof.
  unfold findValueSymbol. generalize (length h) as fuel. intros fuel. revert l.
  induction fuel as [|fuel IH]; intros l; simpl; [done|].
  destruct (h !! l) as [sc|]; [|done].
  destruct (js_in name (value sc)); [done|].
  destruct (parent sc); [apply IH | done].
Qed.

Lemma findTypeSymbol_chain name l h :
  findTypeSymbol name l h = chain_find type (length h) name l h.
Proof.
  unfold findTypeSymbol. generalize (length h) as fuel. intros fuel. revert l.
  induction fuel as [|fuel IH]; intros l; simpl; [done|].
  destruct (h !! l) as [sc|]; [|done].
  destruct (js_in name (type sc)); [done|].
  destruct (parent sc); [apply IH | done].
Qed.

Section Chain.
Context {V : Type} (tbl : Scope → gmap string V).
Implicit Types (h : list Scope) (name : string) (l a p : nat).

(** Fuel beyond the location it starts from changes nothing. *)
Lemma chain_find_fuel h name f1 f2 l :
  wf_heap h → l < f1 → l < f2 →
  chain_find tbl f1 name l h = chain_find tbl f2 name l h.
Proof.
  intros Hwf. revert f2 l.
  induction f1 as [|f1 IH]; intros f2 l H1 H2; [lia|].
  destruct f2 as [|f2]; [lia|]. simpl.
  destruct (h !! l) as [sc|] eqn:Hl; [|done].
  destruct (js_in name (tbl sc)); [done|].
  destruct (parent sc) as [p|] eqn:Hp; [|done].
  pose proof (wf_heap_parent h l sc p Hwf Hl Hp).
  apply IH; lia.
Qed.

(** The lookup algorithm as the source states it, with no fuel left in
    sight. *)
Lemma chain_find_unfold h name l sc :
  wf_heap h → h !! l = Some sc →
  chain_find tbl (length h) name l h
  = if js_in name (tbl sc) then Some (js_get name (tbl sc))
    else match parent sc with
         | Some p => chain_find tbl (length h) name p h
         | None => Some None
         end.
Proof.
  intros Hwf Hl. pose proof (lookup_lt_Some _ _ _ Hl) as Hlt.
  destruct (length h) as [|n] eqn:Hn; [lia|]. simpl. rewrite Hl.
  destruct (js_in name (tbl sc)); [done|].
  destruct (parent sc) as [p|] eqn:Hp; [|done].
  pose proof (wf_heap_parent h l sc p Hwf Hl Hp).
  exact (chain_find_fuel h name n (S n) p Hwf ltac:(lia) ltac:(lia)).
Qed.

Lemma js_in_own name (o : gmap string V) :
  name ∉ Object_prototype_keys → js_in name o = bool_decide (is_Some (o !! name)).
Proof.
  intros Hn. unfold js_in.
  rewrite (bool_decide_eq_false_2 (name ∈ _)) by done. apply orb_false_r.
Qed.

Lemma js_get_own name (o : gmap string V) :
  name ∉ Object_prototype_keys → js_get name o = Own <$> o !! name.
Proof.
  intros Hn. unfold js_get. destruct (o !! name); [done|].
  by rewrite bool_decide_eq_false_2.
Qed.

Lemma nearest_bound h name l a v :
  nearest tbl h name l a v →
  ancestor_or_self h l a ∧ ∃ sc, h !! a = Some sc ∧ tbl sc !! name = Some v.
Proof.
  induction 1 as [l sc v Hl Hv | l sc p a v Hl Hv Hp _ [IHa IHs]].
  - split; [constructor | eauto].
  - split; [by econstructor | done].
Qed.

Lemma bound_nearest h name l :
  is_Some (h !! l) → bound tbl h name l → ∃ a v, nearest tbl h name l a v.
Proof.
  intros Hal (a & sc & Hanc & Ha & [v Hv]).
  induction Hanc as [l | l sc0 p a Hl Hp Hanc IH].
  - exists l, v. by econstructor.
  - destruct (tbl sc0 !! name) as [v0|] eqn:Hv0.
    + exists l, v0. by econstructor.
    + destruct IH as (a' & v' & Hn); [|done|].
      * inversion Hanc; subst; eauto.
      * exists a', v'. by eapply nearest_up.
Qed.

(** For a name that [Object.prototype] does not provide, the walk from
    an allocated scope of a well-formed heap ends: with the binding of
    the nearest declaring scope, or with [undefined] when no scope on
    the way to the root declares the name. *)
Lemma chain_find_resolve h name l :
  wf_heap h → l < length h → name ∉ Object_prototype_keys →
  (∃ a v, nearest tbl h name l a v
          ∧ chain_find tbl (length h) name l h = Some (Some (Own v)))
  ∨ (¬ bound tbl h name l
     ∧ chain_find tbl (length h) name l h = Some None).
Proof.
  intros Hwf Hlt Hn. revert Hlt.
  induction (lt_wf l) as [l _ IH]. intros Hlt.
  destruct (lookup_lt_is_Some_2 h l Hlt) as [sc Hl].
  rewrite (chain_find_unfold h name l sc Hwf Hl).
  rewrite js_in_own, js_get_own by done.
  destruct (tbl sc !! name) as [v|] eqn:Hv.
  - left. exists l, v. split; [by econstructor|].
    by rewrite bool_decide_eq_true_2.
  - rewrite bool_decide_eq_false_2 by (by intros [? ?]).
    assert (∀ a v, nearest tbl h name l a v →
                   ∃ p, parent sc = Some p ∧ nearest tbl h name p a v) as Hup.
    { intros a v Hnear. inversion Hnear; subst; simplify_eq. eauto. }
    destruct (parent sc) as [p|] eqn:Hp.
    + pose proof (wf_heap_parent h l sc p Hwf Hl Hp) as Hpl.
      destruct (IH p Hpl ltac:(lia)) as [(a & v & Hnear & Hfind) | [Hnb Hfind]].
      * left. exists a, v. split; [by eapply nearest_up | done].
      * right. split; [|done]. intros Hb.
        destruct (bound_nearest h name l) as (a & v & Hnear); [eauto|done|].
        destruct (Hup a v Hnear) as (p' & [= <-] & Hnear').
        apply Hnb. destruct (nearest_bound _ _ _ _ _ Hnear') as [? (sc' & ? & ?)].
        exists a, sc'. eauto.
    + right. split; [|done]. intros Hb.
      destruct (bound_nearest h name l) as (a & v & Hnear); [eauto|done|].
      by destruct (Hup a v Hnear) as (p' & ? & _).
Qed.

(** A name that [Object.prototype] provides is found in the first scope
    looked at, declared or not. *)
Lemma chain_find_inherited h name l sc :
  h !! l = Some sc → name ∈ Object_prototype_keys →
  chain_find tbl (length h) name l h = Some (js_get name (tbl sc))
  ∧ is_Some (js_get name (tbl sc)).
Proof.
  intros Hl Hn. pose proof (lookup_lt_Some _ _ _ Hl) as Hlt.
  destruct (length h) as [|n]; [lia|]. simpl. rewrite Hl.
  unfold js_in, js_get. rewrite (bool_decide_eq_true_2 (name ∈ _)) by done.
  rewrite orb_true_r. split; [done|]. destruct (tbl sc !! name); eauto.
Qed.

(** The walk finds something exactly when the name is declared on the
    way to the root or is provided by [Object.prototype]. *)
Lemma chain_find_found_iff h name l :
  wf_heap h → l < length h →
  ∃ r, chain_find tbl (length h) name l h = Some r
       ∧ (is_Some r ↔ bound tbl h name l ∨ name ∈ Object_prototype_keys).
Proof.
  intros Hwf Hlt.
  destruct (decide (name ∈ Object_prototype_keys)) as [Hn|Hn].
  - destruct (lookup_lt_is_Some_2 h l Hlt) as [sc Hl].
    destruct (chain_find_inherited h name l sc Hl Hn) as [-> Hs].
    eexists. split; [done|]. tauto.
  - destruct (chain_find_resolve h name l Hwf Hlt Hn)
      as [(a & v & Hnear & ->) | [Hnb ->]].
    + eexists. split; [done|]. split; [|eauto].
      intros _. left.
      destruct (nearest_bound _ _ _ _ _ Hnear) as [? (sc' & ? & ?)].
      exists a, sc'. eauto.
    + eexists. split; [done|]. split; [by intros [? ?] | tauto].
Qed.
End Chain.

(** ** Allocated names never meet [Object.prototype] *)

Lemma pretty_N_char_digit d : Ascii.nat_of_ascii (pretty_N_char d) < 58.
Proof. unfold pretty_N_char. repeat case_match; vm_compute; lia. Qed.

Lemma pretty_N_go_head x s :
  pretty_N_go x s = s
  ∨ ∃ d rest, pretty_N_go x s = String (pretty_N_char d) rest.
Proof.
  revert s. induction (N.lt_wf_0 x) as [x _ IH]. intros s.
  destruct (decide (x = 0)%N) as [->|Hx].
  - left. apply pretty_N_go_0.
  - right. rewrite pretty_N_go_step by lia.
    destruct (IH (x `div` 10)%N) with (s := String (pretty_N_char (x `mod` 10)) s)
      as [-> | (d & rest & ->)]; eauto.
    apply N.div_lt; lia.
Qed.

Lemma pretty_N_head (x : N) :
  ∃ c rest, pretty x = String c rest ∧ Ascii.nat_of_ascii c < 58.
Proof.
  unfold pretty, pretty_N. case_decide.
  - exists (pretty_N_char 0), "". split; [done | apply pretty_N_char_digit].
  - destruct (pretty_N_go_head x "") as [Hnil | (d & rest & ->)].
    + exfalso. revert Hnil. rewrite pretty_N_go_step by lia.
      destruct (pretty_N_go_head (x `div` 10)%N (String (pretty_N_char (x `mod` 10)) ""))
        as [-> | (d & rest & ->)]; discriminate.
    + exists (pretty_N_char d), rest. split; [done | apply pretty_N_char_digit].
Qed.

Lemma fresh_name_not_inherited (c : N) : "t" +:+ pretty c ∉ Object_prototype_keys.
Proof.
  destruct (pretty_N_head c) as (ch & rest & -> & Hch).
  unfold Object_prototype_keys. intros Hin.
  repeat (apply elem_of_cons in Hin as [Hin|Hin];
          [ try discriminate Hin;
            injection Hin as -> _; vm_compute in Hch; lia | ]).
  by apply elem_of_nil in Hin.
Qed.

(** ** Declaring symbols *)

Lemma createValueSymbol_run name scope ty st :
  createValueSymbol name scope ty st
  = match findValueSymbol name scope (heap st) with
    | None => (Stuck, st)
    | Some (Some _) => (Thrown (redeclare_message name), st)
    | Some None =>
        let symbol := {| vs_name := name; vs_type := ty; vs_scope := scope |} in
        (Returned symbol,
         {| heap := alter (λ sc, with_value sc (<[name := symbol]> (value sc)))
                          scope (heap st);
            nameIds := nameIds st |})
    end.
Proof.
  unfold createValueSymbol, bind, get_heap, lift_option.
  by destruct (findValueSymbol name scope (heap st)) as [[?|]|].
Qed.

Lemma createTypeSymbol_run name scope ty st :
  createTypeSymbol name scope ty st
  = match findTypeSymbol name scope (heap st) with
    | None => (Stuck, st)
    | Some (Some _) => (Thrown (redeclare_message name), st)
    | Some None =>
        let symbol := {| ts_name := name; ts_type := ty; ts_scope := scope |} in
        (Returned symbol,
         {| heap := alter (λ sc, with_type sc (<[name := symbol]> (type sc)))
                          scope (heap st);
            nameIds := nameIds st |})
    end.
Proof.
  unfold createTypeSymbol, bind, get_heap, lift_option.
  by destruct (findTypeSymbol name scope (heap st)) as [[?|]|].
Qed.

(** What [createValueSymbol] does in every well-formed heap: it throws
    exactly when the name is declared on the way to the root or is a
    member of [Object.prototype], and otherwise writes the new symbol
    into the table of the scope it was given. *)
Lemma createValueSymbol_spec name scope ty st :
  wf_heap (heap st) → scope < length (heap st) →
  (value_bound (heap st) name scope ∨ name ∈ Object_prototype_keys →
   createValueSymbol name scope ty st = (Thrown (redeclare_message name), st))
  ∧ (¬ (value_bound (heap st) name scope ∨ name ∈ Object_prototype_keys) →
     let symbol := {| vs_name := name; vs_type := ty; vs_scope := scope |} in
     createValueSymbol name scope ty st
     = (Returned symbol,
        {| heap := alter (λ sc, with_value sc (<[name := symbol]> (value sc)))
                         scope (heap st);
           nameIds := nameIds st |})).
Proof.
  intros Hwf Hlt. rewrite createValueSymbol_run, findValueSymbol_chain.
  destruct (chain_find_found_iff value (heap st) name scope Hwf Hlt)
    as (r & -> & Hr).
  split; intros Hb.
  - apply Hr in Hb as [x ->]. done.
  - destruct r as [x|]; [|done]. destruct Hb. apply Hr. eauto.
Qed.

Lemma createTypeSymbol_spec name scope ty st :
  wf_heap (heap st) → scope < length (heap st) →
  (type_bound (heap st) name scope ∨ name ∈ Object_prototype_keys →
   createTypeSymbol name scope ty st = (Thrown (redeclare_message name), st))
  ∧ (¬ (type_bound (heap st) name scope ∨ name ∈ Object_prototype_keys) →
     let symbol := {| ts_name := name; ts_type := ty; ts_scope := scope |} in
     createTypeSymbol name scope ty st
     = (Returned symbol,
        {| heap := alter (λ sc, with_type sc (<[name := symbol]> (type sc)))
                         scope (heap st);
           nameIds := nameIds st |})).
Proof.
  intros Hwf Hlt. rewrite createTypeSymbol_run, findTypeSymbol_chain.
  destruct (chain_find_found_iff type (heap st) name scope Hwf Hlt)
    as (r & -> & Hr).
  split; intros Hb.
  - apply Hr in Hb as [x ->]. done.
  - destruct r as [x|]; [|done]. destruct Hb. apply Hr. eauto.
Qed.

(** A scope without a parent sees its own table only. *)
Lemma bound_root {V} (tbl : Scope → gmap string V) h name l sc :
  h !! l = Some sc → parent sc = None →
  bound tbl h name l ↔ is_Some (tbl sc !! name).
Proof.
  intros Hl Hp. split.
  - intros (a & sc' & Hanc & Ha & Hs).
    inversion Hanc; subst; simplify_eq. done.
  - intros Hs. exists l, sc. split; [constructor | done].
Qed.

(** C1 (what the code does): in a root scope that declares no value at
    all, declaring a value named [toString] throws the redeclaration
    error, and so does declaring a type named [constructor]: the test
    [name in scope.value] also answers for what [Object.prototype]
    provides. *)
Theorem createValueSymbol_rejects_inherited_name (ty : TypeExpression) :
  ¬ value_bound (heap root_only) "toString" 0
  ∧ createValueSymbol "toString" 0 ty root_only
    = (Thrown (redeclare_message "toString"), root_only)
  ∧ ¬ type_bound (heap root_only) "constructor" 0
  ∧ createTypeSymbol "constructor" 0 (Some ty) root_only
    = (Thrown (redeclare_message "constructor"), root_only).
Proof.
  split; [|split; [|split]].
  - unfold value_bound. rewrite bound_root by done. by intros [? ?].
  - done.
  - unfold type_bound. rewrite bound_root by done. intros [? Hs].
    vm_compute in Hs. discriminate Hs.
  - done.
Qed.

(** C2 (what the code does): in a root scope, which has no parent and
    declares no value, looking up [toString] does not report not-found:
    it returns the member of [Object.prototype] of that name.  The same
    goes for the type lookup of [constructor]. *)
Theorem findValueSymbol_returns_inherited_member :
  (∃ sc, heap root_only !! 0 = Some sc ∧ parent sc = None
         ∧ value sc !! "toString" = None ∧ type sc !! "constructor" = None)
  ∧ findValueSymbol "toString" 0 (heap root_only) = Some (Some (Inherited "toString"))
  ∧ findTypeSymbol "constructor" 0 (heap root_only)
    = Some (Some (Inherited "constructor")).
Proof.
  split; [|split]; [|done..].
  eexists. split; [reflexivity|]. split; [done|]. split; by vm_compute.
Qed.

(** C10: when [createValueSymbol] or [createTypeSymbol] throws, the state
    it leaves is the state it was called in: every scope of the heap, with
    its tables, constraints and substitutions, and the name counters. *)
Theorem redeclaration_is_atomic
    (name : string) (scope : nat) (ty : TypeExpression) (oty : option TypeExpression)
    (st st' : State) (message : string) :
  createValueSymbol name scope ty st = (Thrown message, st')
  ∨ createTypeSymbol name scope oty st = (Thrown message, st') →
  st' = st.
Proof.
  intros [H|H].
  - rewrite createValueSymbol_run in H.
    destruct (findValueSymbol name scope (heap st)) as [[?|]|];
      simpl in H; congruence.
  - rewrite createTypeSymbol_run in H.
    destruct (findTypeSymbol name scope (heap st)) as [[?|]|];
      simpl in H; congruence.
Qed.

Lemma redeclaration_is_atomic_witness :
  (createValueSymbol "x" 1 (NativeType KindString) scenario).2 = scenario.
Proof.
  apply (redeclaration_is_atomic "x" 1 (NativeType KindString) None
           scenario _ (redeclare_message "x")).
  left. vm_compute. reflexivity.
Defined.

(** A lookup that finds nothing shows that nothing is declared. *)
Lemma find_nothing_unbound {V} (tbl : Scope → gmap string V) h name l :
  wf_heap h → l < length h →
  chain_find tbl (length h) name l h = Some None → ¬ bound tbl h name l.
Proof.
  intros Hwf Hlt Hfind Hb.
  destruct (chain_find_found_iff tbl h name l Hwf Hlt) as (r & Hr & Hiff).
  rewrite Hfind in Hr. injection Hr as <-.
  destruct (proj2 Hiff (or_introl Hb)) as [? ?]. done.
Qed.

(** ** The operations keep the heap well-formed *)

Lemma createRootScope_wf st :
  wf_heap (heap st) → wf_heap (heap (createRootScope st).2).
Proof.
  intros Hwf. rewrite createRootScope_run. unfold wf_heap; simpl.
  rewrite wf_from_app. simpl. by rewrite Hwf.
Qed.

Lemma createScope_wf (par : option nat) st :
  wf_heap (heap st) → (∀ p, par = Some p → p < length (heap st)) →
  wf_heap (heap (createScope par st).2).
Proof.
  intros Hwf Hpar. rewrite createScope_run. cbn [snd heap].
  assert (wf_heap (heap st ++
            [ {| children := []; parent := par; type := ∅; value := ∅;
                 constraints := []; substitutions := new_Map |} ])) as Hwf'.
  { unfold wf_heap. rewrite wf_from_app, Hwf. simpl.
    destruct par as [p|]; [|done]. apply bool_decide_eq_true. by apply Hpar. }
  destruct par; [|done]. by apply wf_heap_alter.
Qed.

Lemma createValueSymbol_wf name scope ty st :
  wf_heap (heap st) → wf_heap (heap (createValueSymbol name scope ty st).2).
Proof.
  intros Hwf. rewrite createValueSymbol_run.
  destruct (findValueSymbol name scope (heap st)) as [[?|]|]; [done| |done].
  by apply wf_heap_alter.
Qed.

Lemma createTypeSymbol_wf name scope ty st :
  wf_heap (heap st) → wf_heap (heap (createTypeSymbol name scope ty st).2).
Proof.
  intros Hwf. rewrite createTypeSymbol_run.
  destruct (findTypeSymbol name scope (heap st)) as [[?|]|]; [done| |done].
  by apply wf_heap_alter.
Qed.

Lemma scope_substitutions_set_wf scope key v st :
  wf_heap (heap st) → wf_heap (heap (scope_substitutions_set scope key v st).2).
Proof. intros Hwf. by apply wf_heap_alter. Qed.

(** ** Type variables *)

Lemma createTypeVariable_run scope st :
  let name := "t" +:+ pretty (t (nameIds st)) in
  let st1 := {| heap := heap st; nameIds := bump prefix_t (nameIds st) |} in
  createTypeVariable scope st
  = match createTypeSymbol name scope (Some (InferenceRequired name)) st1 with
    | (Returned _, st2) => (Returned (InferenceRequired name), st2)
    | (Thrown message, st2) => (Thrown message, st2)
    | (Stuck, st2) => (Stuck, st2)
    end.
Proof.
  intros name st1. unfold createTypeVariable. unfold bind at 1.
  rewrite findAvailableName_run. cbn [default prefix_string counter].
  fold name st1. unfold bind.
  by destruct (createTypeSymbol name scope _ st1) as [[?|?|] ?].
Qed.

Lemma createTypeVariable_wf scope st :
  wf_heap (heap st) → wf_heap (heap (createTypeVariable scope st).2).
Proof.
  intros Hwf. rewrite createTypeVariable_run.
  pose proof (createTypeSymbol_wf
    ("t" +:+ pretty (t (nameIds st))) scope
    (Some (InferenceRequired ("t" +:+ pretty (t (nameIds st)))))
    {| heap := heap st; nameIds := bump prefix_t (nameIds st) |} Hwf) as H.
  by destruct (createTypeSymbol _ _ _ _) as [[?|?|] ?].
Qed.

(** What [createTypeVariable] does in a well-formed heap.  It takes the
    next ["t"] name and writes the counter.  When that name is not yet
    declared as a type in the scope or in one of its ancestors, it
    returns the InferenceRequired expression that carries the name and
    the scope's own type table binds the name to a symbol holding that
    expression, which [findTypeSymbol] then finds from the scope.  When
    the name is already declared there, the redeclaration error is
    thrown. *)
Lemma createTypeVariable_registers (scope : nat) (st : State) (sc : Scope) :
  wf_heap (heap st) → heap st !! scope = Some sc →
  let name := "t" +:+ pretty (t (nameIds st)) in
  let typeExpr := InferenceRequired name in
  let symbol := {| ts_name := name; ts_type := Some typeExpr; ts_scope := scope |} in
  let ids' := bump prefix_t (nameIds st) in
  let h' := alter (λ sc, with_type sc (<[name := symbol]> (type sc))) scope (heap st) in
  (¬ type_bound (heap st) name scope →
     createTypeVariable scope st = (Returned typeExpr, {| heap := h'; nameIds := ids' |})
     ∧ h' !! scope = Some (with_type sc (<[name := symbol]> (type sc)))
     ∧ findTypeSymbol name scope h' = Some (Some (Own symbol)))
  ∧ (type_bound (heap st) name scope →
     createTypeVariable scope st
     = (Thrown (redeclare_message name), {| heap := heap st; nameIds := ids' |})).
Proof.
  intros Hwf Hl name typeExpr symbol ids' h'.
  pose proof (lookup_lt_Some _ _ _ Hl) as Hlt.
  pose proof (fresh_name_not_inherited (t (nameIds st))) as Hfresh. fold name in Hfresh.
  rewrite createTypeVariable_run. fold name typeExpr.
  destruct (createTypeSymbol_spec name scope (Some typeExpr)
              {| heap := heap st; nameIds := bump prefix_t (nameIds st) |} Hwf Hlt)
    as [Hthrow Hret].
  cbn [heap nameIds] in Hthrow, Hret.
  split; intros Hb.
  - rewrite Hret by tauto. fold symbol h'. split; [done|].
    assert (h' !! scope = Some (with_type sc (<[name := symbol]> (type sc)))) as Hl'.
    { unfold h'. by rewrite list_lookup_alter_eq, Hl. }
    split; [done|].
    assert (wf_heap h') as Hwf' by (by apply wf_heap_alter).
    rewrite findTypeSymbol_chain.
    rewrite (chain_find_unfold type h' name scope _ Hwf' Hl').
    cbn [type with_type]. unfold js_in, js_get. rewrite lookup_insert_eq.
    by rewrite bool_decide_eq_true_2.
  - rewrite Hthrow by tauto. done.
Qed.

Lemma createTypeVariable_registers_witness :
  createTypeVariable 1 scenario
  = (Returned (InferenceRequired "t0"),
     {| heap := alter (λ sc, with_type sc
                  (<["t0" := {| ts_name := "t0";
                                ts_type := Some (InferenceRequired "t0");
                                ts_scope := 1 |}]> (type sc))) 1 (heap scenario);
        nameIds := {| t := 1; fn := 0 |} |}).
Proof.
  destruct (createTypeVariable_registers 1 scenario
    {| value := {[ "x" := {| vs_name := "x"; vs_type := NativeType KindNumber;
                             vs_scope := 1 |} ]};
       children := []; parent := Some 0; type := ∅; constraints := [];
       substitutions := new_Map |}) as [Hfresh _].
  - by vm_compute.
  - by vm_compute.
  - apply Hfresh.
    apply (find_nothing_unbound type); [by vm_compute | vm_compute; lia | by vm_compute].
Defined.

(** C9 (what the code does): the allocator hands out the next counter
    value without looking at what is declared.  With a type [t0]
    declared in the root scope by a client and the counter still at 0,
    the name the allocator returns is that taken [t0]; the call
    [createTypeVariable(root)] then throws the redeclaration error,
    returns no expression and registers nothing, and the counter has
    moved on all the same. *)
Theorem createTypeVariable_throws_when_taken :
  wf_heap (heap t0_taken)
  ∧ nameIds t0_taken = {| t := 0; fn := 0 |}
  ∧ findTypeSymbol "t0" 0 (heap t0_taken)
    = Some (Some (Own {| ts_name := "t0"; ts_type := None; ts_scope := 0 |}))
  ∧ (findAvailableName None t0_taken).1 = Returned "t0"
  ∧ createTypeVariable 0 t0_taken
    = (Thrown (redeclare_message "t0"),
       {| heap := heap t0_taken; nameIds := {| t := 1; fn := 0 |} |}).
Proof. repeat (split; [by vm_compute|]). by vm_compute. Qed.

(** ** The example of the spec *)

Lemma scenario_lookup :
  findValueSymbol "x" 1 (heap scenario)
  = Some (Some (Own {| vs_name := "x"; vs_type := NativeType KindNumber; vs_scope := 1 |}))
  ∧ findValueSymbol "x" 0 (heap scenario) = Some None
  ∧ createValueSymbol "x" 1 (NativeType KindString) scenario
    = (Thrown (redeclare_message "x"), scenario).
Proof. by vm_compute. Qed.

(** ** Dumping *)

Lemma Object_fromEntries_snoc {V} (entries : list (string * V)) k v :
  Object_fromEntries (entries ++ [(k, v)]) = <[k := v]> (Object_fromEntries entries).
Proof. unfold Object_fromEntries. by rewrite foldl_app. Qed.

Lemma Object_fromEntries_NoDup {V} (entries : list (string * V)) :
  NoDup entries.*1 → Object_fromEntries entries = list_to_map entries.
Proof.
  induction entries as [|[k v] entries IH] using rev_ind; [done|].
  rewrite fmap_app, NoDup_app. intros (Hnd & Hk & _).
  rewrite Object_fromEntries_snoc, IH by done.
  rewrite list_to_map_snoc; [done|].
  intros Hin. apply (Hk k Hin). simpl. apply list_elem_of_singleton. done.
Qed.

(** Whatever the order of the entries, rebuilding an object from the
    mapped entries of a table maps the table. *)
Lemma Object_fromEntries_entries {V W} (f : V → W) (o : gmap string V) :
  Object_fromEntries ((λ e : string * V, (e.1, f e.2)) <$> Object_entries o)
  = f <$> o.
Proof.
  unfold Object_entries. rewrite Object_fromEntries_NoDup.
  - change (λ e : string * V, (e.1, f e.2)) with (prod_map (@id string) f).
    by rewrite list_to_map_fmap, list_to_map_to_list.
  - rewrite <- list_fmap_compose.
    apply (NoDup_fst_map_to_list o).
Qed.

(** The [substitutions] field of a dump is made from the own properties
    of the map object, never from its entries. *)
Lemma dumpScope_rec_substitutions {D} (dumpNode : option TypeExpression → D)
    fuel l h sc d :
  h !! l = Some sc →
  dumpScope_rec dumpNode (S fuel) (inl l) h = Some d →
  dump_substitutions d
  = Some (Object_fromEntries
            ((λ e : string * TypeExpression, (e.1, dumpNode (Some e.2)))
               <$> Object_entries (own_props (substitutions sc)))).
Proof.
  intros Hl. simpl. rewrite Hl. simpl.
  destruct (mapM _ (children sc)) as [kids|]; simpl; [|done].
  by intros [= <-].
Qed.

(** C4 (what the code does): after a client has stored an entry in the
    root scope's substitutions, the store holds that entry, yet the
    [substitutions] field of the dump of that scope is empty:
    [Object.entries] reads the own properties of the map object, and a
    map keeps its entries elsewhere. *)
Theorem dumpScope_substitutions_always_empty
    {D : Type} (dumpNode : option TypeExpression → D) :
  let key := KeyStr "t0" in
  let v := NativeType KindNumber in
  let st := (scope_substitutions_set 0 key v root_only).2 in
  (∃ sc, heap st !! 0 = Some sc
         ∧ map_data (substitutions sc) = [(key, v)]
         ∧ call_get key (substitutions sc) = Some v)
  ∧ dumpScope dumpNode (inl 0) (heap st) ≫= dump_substitutions = Some ∅.
Proof.
  intros key v st. split.
  - eexists. split; [reflexivity|]. by vm_compute.
  - by vm_compute.
Qed.

(** * Further properties of the lookup and of declarations *)

(** ** Heaps that agree on what the walk reads *)

Lemma js_in_lookup {V} name (o o' : gmap string V) :
  o' !! name = o !! name → js_in name o' = js_in name o.
Proof. intros H. unfold js_in. by rewrite H. Qed.

Lemma js_get_lookup {V} name (o o' : gmap string V) :
  o' !! name = o !! name → js_get name o' = js_get name o.
Proof. intros H. unfold js_get. by rewrite H. Qed.

(** The walk reads, of each scope, the entry of [name] and the parent. *)
Lemma chain_find_ext {V} (tbl : Scope → gmap string V) h h' name fuel l :
  (∀ l, match h !! l, h' !! l with
        | Some sc, Some sc' =>
            tbl sc' !! name = tbl sc !! name ∧ parent sc' = parent sc
        | None, None => True
        | _, _ => False
        end) →
  chain_find tbl fuel name l h' = chain_find tbl fuel name l h.
Proof.
  intros Hag. revert l. induction fuel as [|fuel IH]; intros l; [done|].
  simpl. specialize (Hag l).
  destruct (h !! l) as [sc|], (h' !! l) as [sc'|]; try done.
  destruct Hag as [Ht Hp].
  rewrite (js_in_lookup _ _ _ Ht), (js_get_lookup _ _ _ Ht), Hp.
  destruct (js_in name (tbl sc)); [done|]. destruct (parent sc); [apply IH|done].
Qed.

Lemma chain_find_alter {V} (tbl : Scope → gmap string V) h name fuel l s
    (f : Scope → Scope) :
  (∀ sc, tbl (f sc) !! name = tbl sc !! name ∧ parent (f sc) = parent sc) →
  chain_find tbl fuel name l (alter f s h) = chain_find tbl fuel name l h.
Proof.
  intros Hf. apply chain_find_ext. intros l'.
  rewrite list_lookup_alter. case_decide; subst.
  - destruct (h !! l'); simpl; [apply Hf | done].
  - by destruct (h !! l').
Qed.

(** The heap of the state a declaration leaves. *)
Lemma createValueSymbol_heap name scope ty st :
  heap (createValueSymbol name scope ty st).2 = heap st
  ∨ heap (createValueSymbol name scope ty st).2
    = alter (λ sc, with_value sc
               (<[name := {| vs_name := name; vs_type := ty; vs_scope := scope |}]>
                  (value sc))) scope (heap st).
Proof.
  rewrite createValueSymbol_run.
  destruct (findValueSymbol name scope (heap st)) as [[?|]|]; auto.
Qed.

Lemma createTypeSymbol_heap name scope ty st :
  heap (createTypeSymbol name scope ty st).2 = heap st
  ∨ heap (createTypeSymbol name scope ty st).2
    = alter (λ sc, with_type sc
               (<[name := {| ts_name := name; ts_type := ty; ts_scope := scope |}]>
                  (type sc))) scope (heap st).
Proof.
  rewrite createTypeSymbol_run.
  destruct (findTypeSymbol name scope (heap st)) as [[?|]|]; auto.
Qed.

(** X1: declaring a name, whether it succeeds or throws, changes the
    result of no lookup of another name, from any scope, in the value
    namespace and in the type namespace alike. *)
Theorem declaration_keeps_other_names
    (name other : string) (scope l : nat) (ty : TypeExpression)
    (oty : option TypeExpression) (st : State) :
  other ≠ name →
  findValueSymbol other l (heap (createValueSymbol name scope ty st).2)
  = findValueSymbol other l (heap st)
  ∧ findTypeSymbol other l (heap (createTypeSymbol name scope oty st).2)
    = findTypeSymbol other l (heap st).
Proof.
  intros Hne. split.
  - destruct (createValueSymbol_heap name scope ty st) as [->| ->]; [done|].
    rewrite !findValueSymbol_chain, length_alter.
    apply chain_find_alter. intros sc. split; [|done].
    simpl. by apply lookup_insert_ne.
  - destruct (createTypeSymbol_heap name scope oty st) as [->| ->]; [done|].
    rewrite !findTypeSymbol_chain, length_alter.
    apply chain_find_alter. intros sc. split; [|done].
    simpl. by apply lookup_insert_ne.
Qed.

Lemma declaration_keeps_other_names_witness :
  findValueSymbol "x" 1
    (heap (createValueSymbol "y" 1 (NativeType KindString) scenario).2)
  = findValueSymbol "x" 1 (heap scenario).
Proof.
  apply (declaration_keeps_other_names "y" "x" 1 1 (NativeType KindString) None scenario).
  by vm_compute.
Defined.

(** X2: the two namespaces do not meet: declaring a value changes no
    type lookup and declaring a type changes no value lookup, for any
    name and from any scope. *)
Theorem namespaces_are_separate
    (name n : string) (scope l : nat) (ty : TypeExpression)
    (oty : option TypeExpression) (st : State) :
  findTypeSymbol n l (heap (createValueSymbol name scope ty st).2)
  = findTypeSymbol n l (heap st)
  ∧ findValueSymbol n l (heap (createTypeSymbol name scope oty st).2)
    = findValueSymbol n l (heap st).
Proof.
  split.
  - destruct (createValueSymbol_heap name scope ty st) as [->| ->]; [done|].
    rewrite !findTypeSymbol_chain, length_alter.
    by apply chain_find_alter.
  - destruct (createTypeSymbol_heap name scope oty st) as [->| ->]; [done|].
    rewrite !findValueSymbol_chain, length_alter.
    by apply chain_find_alter.
Qed.

(** ** Ancestors *)

Lemma on_chain_sound fuel h l a :
  on_chain fuel h l a = true → ancestor_or_self h l a.
Proof.
  revert l. induction fuel as [|fuel IH]; intros l; simpl; [done|].
  intros [Heq|Hup]%orb_true_iff.
  - apply bool_decide_eq_true in Heq as ->. constructor.
  - destruct (h !! l) as [sc|] eqn:Hl; [|done].
    destruct (parent sc) as [p|] eqn:Hp; [|done].
    eapply aos_parent; eauto.
Qed.

Lemma on_chain_complete fuel h l a :
  wf_heap h → l < fuel → ancestor_or_self h l a → on_chain fuel h l a = true.
Proof.
  intros Hwf Hlt Hanc. revert fuel Hlt.
  induction Hanc as [l | l sc p a Hl Hp _ IH]; intros fuel Hlt.
  - destruct fuel; [lia|]. simpl. by rewrite bool_decide_eq_true_2.
  - destruct fuel as [|fuel]; [lia|]. simpl. rewrite Hl, Hp.
    pose proof (wf_heap_parent h l sc p Hwf Hl Hp).
    rewrite IH by lia. apply orb_true_r.
Qed.

Lemma not_on_chain h l a :
  wf_heap h → l < length h → on_chain (length h) h l a = false →
  ¬ ancestor_or_self h l a.
Proof.
  intros Hwf Hlt Hoff Hanc.
  by rewrite (on_chain_complete _ _ _ _ Hwf Hlt Hanc) in Hoff.
Qed.

Lemma ancestor_alter h l a s (f : Scope → Scope) :
  (∀ sc, parent (f sc) = parent sc) →
  ancestor_or_self h l a → ancestor_or_self (alter f s h) l a.
Proof.
  intros Hf. induction 1 as [l | l sc p a Hl Hp _ IH]; [constructor|].
  destruct (decide (s = l)) as [->|Hne].
  - eapply (aos_parent _ l (f sc) p); [|by rewrite Hf|done].
    by rewrite list_lookup_alter_eq, Hl.
  - eapply (aos_parent _ l sc p); [|done..].
    by rewrite list_lookup_alter_ne.
Qed.

(** A scope that is not on the way up from [l] can change at will. *)
Lemma chain_find_off_chain {V} (tbl : Scope → gmap string V) h name fuel l s
    (f : Scope → Scope) :
  (∀ sc, parent (f sc) = parent sc) → ¬ ancestor_or_self h l s →
  chain_find tbl fuel name l (alter f s h) = chain_find tbl fuel name l h.
Proof.
  intros Hf. revert l. induction fuel as [|fuel IH]; intros l Hoff; [done|].
  simpl. assert (s ≠ l) as Hne by (intros ->; apply Hoff; constructor).
  rewrite list_lookup_alter_ne by done.
  destruct (h !! l) as [sc|] eqn:Hl; [|done].
  destruct (js_in name (tbl sc)); [done|].
  destruct (parent sc) as [p|] eqn:Hp; [|done].
  apply IH. intros Hanc. apply Hoff. by eapply aos_parent.
Qed.

(** X3: a declaration in a scope is invisible from every scope that does
    not have that scope on its way to the root (a sibling, a cousin, an
    ancestor): there every lookup, of the declared name too, answers as
    before. *)
Theorem declaration_is_local
    (name n : string) (scope l : nat) (ty : TypeExpression)
    (oty : option TypeExpression) (st : State) :
  ¬ ancestor_or_self (heap st) l scope →
  findValueSymbol n l (heap (createValueSymbol name scope ty st).2)
  = findValueSymbol n l (heap st)
  ∧ findTypeSymbol n l (heap (createTypeSymbol name scope oty st).2)
    = findTypeSymbol n l (heap st).
Proof.
  intros Hoff. split.
  - destruct (createValueSymbol_heap name scope ty st) as [->| ->]; [done|].
    rewrite !findValueSymbol_chain, length_alter.
    by apply chain_find_off_chain.
  - destruct (createTypeSymbol_heap name scope oty st) as [->| ->]; [done|].
    rewrite !findTypeSymbol_chain, length_alter.
    by apply chain_find_off_chain.
Qed.

Lemma declaration_is_local_witness :
  findValueSymbol "x" 2
    (heap (createValueSymbol "x" 1 (NativeType KindNumber) two_children).2)
  = findValueSymbol "x" 2 (heap two_children).
Proof.
  apply (declaration_is_local "x" "x" 1 2 (NativeType KindNumber) None two_children).
  apply not_on_chain; [by vm_compute | vm_compute; lia | by vm_compute].
Defined.

(** ** What a lookup returns *)

Lemma nearest_functional {V} (tbl : Scope → gmap string V) h name l a a' v v' :
  nearest tbl h name l a v → nearest tbl h name l a' v' → a = a' ∧ v = v'.
Proof.
  intros Hn. revert a' v'.
  induction Hn as [l sc v Hl Hv | l sc p a v Hl Hv Hp _ IH]; intros a' v' Hn';
    inversion Hn'; subst; simplify_eq; eauto.
Qed.

Lemma chain_find_nearest_iff {V} (tbl : Scope → gmap string V) h name l :
  wf_heap h → l < length h → name ∉ Object_prototype_keys →
  (∀ v, chain_find tbl (length h) name l h = Some (Some (Own v))
        ↔ ∃ a, nearest tbl h name l a v)
  ∧ (chain_find tbl (length h) name l h = Some None ↔ ¬ bound tbl h name l).
Proof.
  intros Hwf Hlt Hn.
  destruct (chain_find_resolve tbl h name l Hwf Hlt Hn)
    as [(a & v & Hnear & Hfind) | [Hnb Hfind]]; rewrite Hfind.
  - split.
    + intros v'. split.
      * intros [= <-]. eauto.
      * intros [a' Hnear'].
        by destruct (nearest_functional _ _ _ _ _ _ _ _ Hnear Hnear') as [_ ->].
    + split; [done|]. intros Hnb. destruct Hnb.
      destruct (nearest_bound _ _ _ _ _ _ Hnear) as [? (sc & ? & ?)].
      exists a, sc. eauto.
  - split; [|done]. intros v. split; [done|].
    intros [a Hnear]. destruct Hnb.
    destruct (nearest_bound _ _ _ _ _ _ Hnear) as [? (sc & ? & ?)].
    exists a, sc. eauto.
Qed.

(** X4: in a well-formed heap, for a name that [Object.prototype] does
    not provide, a lookup from an allocated scope returns a symbol
    exactly when that symbol is the binding of the nearest scope, going
    up, that declares the name, and returns [undefined] exactly when no
    scope on the way to the root declares it.  This holds for values and
    for types. *)
Theorem lookup_returns_nearest (h : list Scope) (name : string) (l : nat) :
  wf_heap h → l < length h → name ∉ Object_prototype_keys →
  (∀ v, findValueSymbol name l h = Some (Some (Own v))
        ↔ ∃ a, nearest value h name l a v)
  ∧ (findValueSymbol name l h = Some None ↔ ¬ value_bound h name l)
  ∧ (∀ v, findTypeSymbol name l h = Some (Some (Own v))
          ↔ ∃ a, nearest type h name l a v)
  ∧ (findTypeSymbol name l h = Some None ↔ ¬ type_bound h name l).
Proof.
  intros Hwf Hlt Hn. rewrite findValueSymbol_chain, findTypeSymbol_chain.
  destruct (chain_find_nearest_iff value h name l Hwf Hlt Hn).
  destruct (chain_find_nearest_iff type h name l Hwf Hlt Hn).
  done.
Qed.

Lemma lookup_returns_nearest_witness :
  findValueSymbol "x" 0 (heap scenario) = Some None
  ↔ ¬ value_bound (heap scenario) "x" 0.
Proof.
  apply (lookup_returns_nearest (heap scenario) "x" 0).
  - by vm_compute.
  - vm_compute; lia.
  - apply (bool_decide_unpack _). by vm_compute.
Defined.

(** ** Declarations *)

(** X5: in a well-formed heap a declaration in an allocated scope, of a
    value or of a type (given with a type expression or without one),
    always ends, in one of two ways.  It throws the redeclaration error, leaving
    the state as it was, exactly when the name is declared in the scope
    or an ancestor or is provided by [Object.prototype]; in every other
    case it returns the new symbol and the only change to the state is
    the new entry in the table of that scope. *)
Theorem declaration_outcome
    (name : string) (scope : nat) (ty : TypeExpression)
    (oty : option TypeExpression) (st : State) :
  wf_heap (heap st) → scope < length (heap st) →
  let vsym := {| vs_name := name; vs_type := ty; vs_scope := scope |} in
  let tsym := {| ts_name := name; ts_type := oty; ts_scope := scope |} in
  (value_bound (heap st) name scope ∨ name ∈ Object_prototype_keys →
     createValueSymbol name scope ty st = (Thrown (redeclare_message name), st))
  ∧ (¬ (value_bound (heap st) name scope ∨ name ∈ Object_prototype_keys) →
     createValueSymbol name scope ty st
     = (Returned vsym,
        {| heap := alter (λ sc, with_value sc (<[name := vsym]> (value sc)))
                         scope (heap st);
           nameIds := nameIds st |}))
  ∧ (type_bound (heap st) name scope ∨ name ∈ Object_prototype_keys →
     createTypeSymbol name scope oty st
     = (Thrown (redeclare_message name), st))
  ∧ (¬ (type_bound (heap st) name scope ∨ name ∈ Object_prototype_keys) →
     createTypeSymbol name scope oty st
     = (Returned tsym,
        {| heap := alter (λ sc, with_type sc (<[name := tsym]> (type sc)))
                         scope (heap st);
           nameIds := nameIds st |})).
Proof.
  intros Hwf Hlt vsym tsym.
  destruct (createValueSymbol_spec name scope ty st Hwf Hlt) as [Hv1 Hv2].
  destruct (createTypeSymbol_spec name scope oty st Hwf Hlt) as [Ht1 Ht2].
  done.
Qed.

Lemma declaration_outcome_witness :
  createValueSymbol "x" 1 (NativeType KindString) scenario
  = (Thrown (redeclare_message "x"), scenario).
Proof.
  destruct (declaration_outcome "x" 1 (NativeType KindString) None scenario)
    as (Hthrow & _).
  - by vm_compute.
  - vm_compute; lia.
  - apply Hthrow. left.
    exists 1. eexists. split; [constructor|]. split; [reflexivity|].
    vm_compute. by eexists.
Defined.

Lemma lookup_own_after_insert {V} (tbl : Scope → gmap string V) h name l sc v :
  h !! l = Some sc → tbl sc !! name = Some v →
  chain_find tbl (length h) name l h = Some (Some (Own v)).
Proof.
  intros Hl Hv. pose proof (lookup_lt_Some _ _ _ Hl) as Hlt.
  destruct (length h) as [|n]; [lia|]. simpl. rewrite Hl.
  unfold js_in, js_get. rewrite Hv. by rewrite bool_decide_eq_true_2.
Qed.

(** X6: a declaration that returns hands back a symbol with the given
    name and type and with the scope it was declared in, and a lookup of
    that name from that scope then returns this very symbol; the name
    counters are untouched. *)
Theorem declared_symbol_is_found
    (name : string) (scope : nat) (ty : TypeExpression) (st st' : State)
    (sym : ValueSymbol) :
  createValueSymbol name scope ty st = (Returned sym, st') →
  sym = {| vs_name := name; vs_type := ty; vs_scope := scope |}
  ∧ findValueSymbol name scope (heap st') = Some (Some (Own sym))
  ∧ nameIds st' = nameIds st.
Proof.
  rewrite createValueSymbol_run.
  destruct (findValueSymbol name scope (heap st)) as [[?|]|] eqn:Hfind; try done.
  intros [= <- <-]. split; [done|]. split; [|done]. cbn [heap].
  assert (is_Some (heap st !! scope)) as [sc Hl].
  { unfold findValueSymbol in Hfind. destruct (length (heap st)); [done|].
    simpl in Hfind. destruct (heap st !! scope); [eauto | done]. }
  rewrite findValueSymbol_chain.
  eapply lookup_own_after_insert.
  - by rewrite list_lookup_alter_eq, Hl.
  - simpl. apply lookup_insert_eq.
Qed.

Lemma declared_symbol_is_found_witness :
  findValueSymbol "y" 1
    (heap (createValueSymbol "y" 1 (NativeType KindString) scenario).2)
  = Some (Some (Own {| vs_name := "y"; vs_type := NativeType KindString;
                       vs_scope := 1 |})).
Proof.
  destruct (declared_symbol_is_found "y" 1 (NativeType KindString) scenario
              (createValueSymbol "y" 1 (NativeType KindString) scenario).2
              {| vs_name := "y"; vs_type := NativeType KindString; vs_scope := 1 |})
    as (_ & Hfind & _); [by vm_compute | exact Hfind].
Defined.

(** X7: the same for a type: the symbol returned carries the given name,
    the given (possibly absent) type and the scope, and the type lookup
    of the name from that scope returns it. *)
Theorem declared_type_is_found
    (name : string) (scope : nat) (oty : option TypeExpression) (st st' : State)
    (sym : TypeSymbol) :
  createTypeSymbol name scope oty st = (Returned sym, st') →
  sym = {| ts_name := name; ts_type := oty; ts_scope := scope |}
  ∧ findTypeSymbol name scope (heap st') = Some (Some (Own sym))
  ∧ nameIds st' = nameIds st.
Proof.
  rewrite createTypeSymbol_run.
  destruct (findTypeSymbol name scope (heap st)) as [[?|]|] eqn:Hfind; try done.
  intros [= <- <-]. split; [done|]. split; [|done]. cbn [heap].
  assert (is_Some (heap st !! scope)) as [sc Hl].
  { unfold findTypeSymbol in Hfind. destruct (length (heap st)); [done|].
    simpl in Hfind. destruct (heap st !! scope); [eauto | done]. }
  rewrite findTypeSymbol_chain.
  eapply lookup_own_after_insert.
  - by rewrite list_lookup_alter_eq, Hl.
  - simpl. apply lookup_insert_eq.
Qed.

Lemma declared_type_is_found_witness :
  findTypeSymbol "Point" 1 (heap (createTypeSymbol "Point" 1 None scenario).2)
  = Some (Some (Own {| ts_name := "Point"; ts_type := None; ts_scope := 1 |})).
Proof.
  destruct (declared_type_is_found "Point" 1 None scenario
              (createTypeSymbol "Point" 1 None scenario).2
              {| ts_name := "Point"; ts_type := None; ts_scope := 1 |})
    as (_ & Hfind & _); [by vm_compute | exact Hfind].
Defined.

(** X8: once a name has been declared in a scope, declaring it again in
    that scope or in any scope below it throws and changes nothing, for
    values and for types, whether the type declarations come with a type
    expression or without one: an inner scope cannot shadow an outer
    declaration. *)
Theorem descendants_cannot_redeclare
    (name : string) (s d : nat) (ty ty' : TypeExpression)
    (oty oty' : option TypeExpression) (st : State) :
  wf_heap (heap st) → d < length (heap st) → ancestor_or_self (heap st) d s →
  (∀ sym st', createValueSymbol name s ty st = (Returned sym, st') →
     createValueSymbol name d ty' st' = (Thrown (redeclare_message name), st'))
  ∧ (∀ sym st', createTypeSymbol name s oty st = (Returned sym, st') →
       createTypeSymbol name d oty' st' = (Thrown (redeclare_message name), st')).
Proof.
  intros Hwf Hd Hanc. split; intros sym st'.
  - rewrite createValueSymbol_run.
    destruct (findValueSymbol name s (heap st)) as [[?|]|] eqn:Hfind; try done.
    intros [= <- <-].
    assert (is_Some (heap st !! s)) as [sc Hs].
    { unfold findValueSymbol in Hfind. destruct (length (heap st)); [done|].
      simpl in Hfind. destruct (heap st !! s); [eauto | done]. }
    apply createValueSymbol_spec; cbn [heap].
    + by apply wf_heap_alter.
    + by rewrite length_alter.
    + left. exists s. eexists. split; [by apply ancestor_alter|].
      split; [by rewrite list_lookup_alter_eq, Hs|].
      simpl. rewrite lookup_insert_eq. by eexists.
  - rewrite createTypeSymbol_run.
    destruct (findTypeSymbol name s (heap st)) as [[?|]|] eqn:Hfind; try done.
    intros [= <- <-].
    assert (is_Some (heap st !! s)) as [sc Hs].
    { unfold findTypeSymbol in Hfind. destruct (length (heap st)); [done|].
      simpl in Hfind. destruct (heap st !! s); [eauto | done]. }
    apply createTypeSymbol_spec; cbn [heap].
    + by apply wf_heap_alter.
    + by rewrite length_alter.
    + left. exists s. eexists. split; [by apply ancestor_alter|].
      split; [by rewrite list_lookup_alter_eq, Hs|].
      simpl. rewrite lookup_insert_eq. by eexists.
Qed.

Lemma descendants_cannot_redeclare_witness :
  let st' := (createValueSymbol "y" 0 (NativeType KindNumber) scenario).2 in
  createValueSymbol "y" 1 (NativeType KindString) st'
  = (Thrown (redeclare_message "y"), st').
Proof.
  intros st'.
  destruct (descendants_cannot_redeclare "y" 0 1
              (NativeType KindNumber) (NativeType KindString) None None scenario)
    as [Hvalue _].
  - by vm_compute.
  - vm_compute; lia.
  - apply (on_chain_sound 2). by vm_compute.
  - apply (Hvalue {| vs_name := "y"; vs_type := NativeType KindNumber; vs_scope := 0 |}).
    by vm_compute.
Defined.

(** ** New scopes *)

(** In a well-formed heap the walk from an allocated scope only reads
    allocated scopes, so a heap that extends it, and keeps the tables and
    parents of what was there, answers the same. *)
Lemma chain_find_prefix {V} (tbl : Scope → gmap string V)
    (h h' : list Scope) (name : string) (fuel l : nat) :
  wf_heap h → l < length h →
  (∀ l sc, h !! l = Some sc →
     ∃ sc', h' !! l = Some sc' ∧ tbl sc' = tbl sc ∧ parent sc' = parent sc) →
  chain_find tbl fuel name l h' = chain_find tbl fuel name l h.
Proof.
  intros Hwf Hlt Hag. revert l Hlt.
  induction fuel as [|fuel IH]; intros l Hlt; [done|]. simpl.
  destruct (lookup_lt_is_Some_2 h l Hlt) as [sc Hl].
  destruct (Hag l sc Hl) as (sc' & Hl' & Ht & Hp).
  rewrite Hl, Hl', Ht, Hp.
  destruct (js_in name (tbl sc)); [done|].
  destruct (parent sc) as [p|] eqn:Hpar; [|done].
  pose proof (wf_heap_parent h l sc p Hwf Hl Hpar). apply IH. lia.
Qed.

Lemma chain_find_grown {V} (tbl : Scope → gmap string V)
    (h h' : list Scope) (name : string) (l : nat) :
  wf_heap h → l < length h → (length h ≤ length h')%nat →
  (∀ l sc, h !! l = Some sc →
     ∃ sc', h' !! l = Some sc' ∧ tbl sc' = tbl sc ∧ parent sc' = parent sc) →
  chain_find tbl (length h') name l h' = chain_find tbl (length h) name l h.
Proof.
  intros Hwf Hlt Hle Hag.
  rewrite (chain_find_prefix tbl h h' name (length h') l Hwf Hlt Hag).
  apply chain_find_fuel; [done|lia..].
Qed.

Lemma createScope_keeps_scopes (par : option nat) st l sc :
  heap st !! l = Some sc →
  ∃ sc', heap (createScope par st).2 !! l = Some sc'
         ∧ value sc' = value sc ∧ type sc' = type sc ∧ parent sc' = parent sc
         ∧ constraints sc' = constraints sc ∧ substitutions sc' = substitutions sc.
Proof.
  intros Hl. rewrite createScope_run. cbn [snd heap].
  pose proof (lookup_app_l_Some _
    [ {| children := []; parent := par; type := ∅; value := ∅;
         constraints := []; substitutions := new_Map |} ] _ _ Hl) as Hl'.
  destruct par as [p|]; [|eauto 10].
  rewrite list_lookup_alter. case_decide; subst; rewrite Hl'; simpl; eauto 10.
Qed.

Lemma createScope_keeps_lookups (par : option nat) st name l :
  wf_heap (heap st) → l < length (heap st) →
  findValueSymbol name l (heap (createScope par st).2)
  = findValueSymbol name l (heap st)
  ∧ findTypeSymbol name l (heap (createScope par st).2)
    = findTypeSymbol name l (heap st).
Proof.
  intros Hwf Hlt.
  assert (length (heap st) ≤ length (heap (createScope par st).2))%nat as Hle.
  { rewrite createScope_run. cbn [snd heap].
    destruct par; rewrite ?length_alter, length_app; lia. }
  rewrite !findValueSymbol_chain, !findTypeSymbol_chain.
  split; apply chain_find_grown; try done.
  - intros l' sc Hl.
    destruct (createScope_keeps_scopes par st l' sc Hl) as (sc' & ? & ? & ? & ? & _).
    eauto.
  - intros l' sc Hl.
    destruct (createScope_keeps_scopes par st l' sc Hl) as (sc' & ? & ? & ? & ? & _).
    eauto.
Qed.

(** X9: creating a scope changes what no existing scope sees: in a
    well-formed heap every value and type lookup from a scope that was
    already there answers as before, for [createScope] with or without a
    parent and for [createRootScope]. *)
Theorem new_scopes_change_no_lookup
    (par : option nat) (st : State) (name : string) (l : nat) :
  wf_heap (heap st) → l < length (heap st) →
  findValueSymbol name l (heap (createScope par st).2)
  = findValueSymbol name l (heap st)
  ∧ findTypeSymbol name l (heap (createScope par st).2)
    = findTypeSymbol name l (heap st)
  ∧ findValueSymbol name l (heap (createRootScope st).2)
    = findValueSymbol name l (heap st)
  ∧ findTypeSymbol name l (heap (createRootScope st).2)
    = findTypeSymbol name l (heap st).
Proof.
  intros Hwf Hlt.
  destruct (createScope_keeps_lookups par st name l Hwf Hlt) as [Hv Ht].
  split; [done|]. split; [done|].
  assert (length (heap st) ≤ length (heap (createRootScope st).2))%nat as Hle.
  { rewrite createRootScope_run. cbn [snd heap]. rewrite length_app; lia. }
  rewrite !findValueSymbol_chain, !findTypeSymbol_chain.
  split; apply chain_find_grown; try done.
  - intros l' sc Hl. exists sc. rewrite createRootScope_run. cbn [snd heap].
    by rewrite (lookup_app_l_Some _ _ _ _ Hl).
  - intros l' sc Hl. exists sc. rewrite createRootScope_run. cbn [snd heap].
    by rewrite (lookup_app_l_Some _ _ _ _ Hl).
Qed.

Lemma new_scopes_change_no_lookup_witness :
  findValueSymbol "x" 1 (heap (createScope (Some 1) scenario).2)
  = findValueSymbol "x" 1 (heap scenario).
Proof.
  destruct (new_scopes_change_no_lookup (Some 1) scenario "x" 1) as [H _].
  - by vm_compute.
  - vm_compute; lia.
  - exact H.
Defined.

(** X10: a scope fresh from [createScope(parent)] sees what its parent
    sees: for a name that [Object.prototype] does not provide, the value
    and type lookups from the new scope return what the lookups from the
    parent returned before the call. *)
Theorem new_scope_sees_parent (p : nat) (st : State) (name : string) :
  wf_heap (heap st) → p < length (heap st) → name ∉ Object_prototype_keys →
  findValueSymbol name (length (heap st)) (heap (createScope (Some p) st).2)
  = findValueSymbol name p (heap st)
  ∧ findTypeSymbol name (length (heap st)) (heap (createScope (Some p) st).2)
    = findTypeSymbol name p (heap st).
Proof.
  intros Hwf Hp Hn.
  destruct (createScope_new_scope (Some p) st)
    as (sc & Hl & _ & Hv & Ht & _ & Hpar).
  assert (wf_heap (heap (createScope (Some p) st).2)) as Hwf'.
  { apply createScope_wf; [done|]. by intros ? [= <-]. }
  destruct (createScope_keeps_lookups (Some p) st name p Hwf Hp) as [Hfv Hft].
  rewrite <- Hfv, <- Hft.
  rewrite !findValueSymbol_chain, !findTypeSymbol_chain.
  rewrite (chain_find_unfold value _ name _ sc Hwf' Hl).
  rewrite (chain_find_unfold type _ name _ sc Hwf' Hl).
  rewrite !js_in_own by done. rewrite Hv, Ht, !lookup_empty, Hpar.
  by rewrite bool_decide_eq_false_2 by (by intros [? ?]).
Qed.

Lemma new_scope_sees_parent_witness :
  findValueSymbol "x" 2 (heap (createScope (Some 1) scenario).2)
  = findValueSymbol "x" 1 (heap scenario).
Proof.
  destruct (new_scope_sees_parent 1 scenario "x") as [H _].
  - by vm_compute.
  - vm_compute; lia.
  - apply (bool_decide_unpack _). by vm_compute.
  - exact H.
Defined.

(** * The scope tree *)

Lemma forall_from_spec P base h :
  forall_from P base h = true ↔ ∀ i sc, h !! i = Some sc → P (base + i) sc = true.
Proof.
  revert base. induction h as [|sc0 rest IH]; intros base; simpl.
  - split; [by intros _ i sc | done].
  - rewrite andb_true_iff, IH. split.
    + intros [H0 Hr] [|i] sc Hi; simpl in Hi.
      * injection Hi as <-. by rewrite Nat.add_0_r.
      * replace (base + S i) with (S base + i) by lia. by apply Hr.
    + intros H. split.
      * rewrite <- (Nat.add_0_r base). by apply H.
      * intros i sc Hi. replace (S base + i) with (base + S i) by lia. by apply H.
Qed.

Lemma linked_spec h :
  linked h ↔
  ∀ l sc, h !! l = Some sc →
    (∀ p, parent sc = Some p → ∃ psc, h !! p = Some psc ∧ l ∈ children psc)
    ∧ NoDup (children sc)
    ∧ (∀ c, c ∈ children sc → ∃ csc, h !! c = Some csc ∧ parent csc = Some l).
Proof.
  unfold linked. rewrite forall_from_spec.
  assert (∀ l sc,
    parent_linked h l sc && children_linked h l sc = true ↔
    (∀ p, parent sc = Some p → ∃ psc, h !! p = Some psc ∧ l ∈ children psc)
    ∧ NoDup (children sc)
    ∧ (∀ c, c ∈ children sc → ∃ csc, h !! c = Some csc ∧ parent csc = Some l))
    as Hone.
  { intros l sc. unfold parent_linked, children_linked.
    rewrite !andb_true_iff, bool_decide_eq_true, forallb_forall.
    split.
    - intros (Hp & Hnd & Hc). split; [|split; [done|]].
      + intros p Hpar. rewrite Hpar in Hp.
        destruct (h !! p) as [psc|]; [|done].
        apply bool_decide_eq_true in Hp. eauto.
      + intros c Hin. apply list_elem_of_In, Hc in Hin.
        destruct (h !! c) as [csc|]; [|done].
        apply bool_decide_eq_true in Hin. eauto.
    - intros (Hp & Hnd & Hc). split; [|split; [done|]].
      + destruct (parent sc) as [p|]; [|done].
        destruct (Hp p eq_refl) as (psc & -> & Hin).
        by apply bool_decide_eq_true.
      + intros c Hin. apply list_elem_of_In in Hin.
        destruct (Hc c Hin) as (csc & -> & Hpar).
        by apply bool_decide_eq_true. }
  split; intros H l sc Hl.
  - apply Hone. by apply (H l sc Hl).
  - apply Hone. by apply H.
Qed.


Lemma linked_ext (h h' : list Scope) :
  (∀ l, shape <$> h' !! l = shape <$> h !! l) → linked h → linked h'.
Proof.
  intros Hsh. rewrite !linked_spec. intros H l sc' Hl'.
  assert (∀ l sc', h' !! l = Some sc' →
            ∃ sc, h !! l = Some sc ∧ parent sc = parent sc'
                  ∧ children sc = children sc') as Hback.
  { intros l0 sc0 Hl0. specialize (Hsh l0). rewrite Hl0 in Hsh. simpl in Hsh.
    destruct (h !! l0) as [sc|]; [|done]. injection Hsh as Hp Hc. eauto. }
  assert (∀ l sc, h !! l = Some sc →
            ∃ sc', h' !! l = Some sc' ∧ parent sc' = parent sc
                   ∧ children sc' = children sc) as Hforth.
  { intros l0 sc0 Hl0. specialize (Hsh l0). rewrite Hl0 in Hsh. simpl in Hsh.
    destruct (h' !! l0) as [sc|]; [|done]. injection Hsh as Hp Hc. eauto. }
  destruct (Hback l sc' Hl') as (sc & Hl & Hp & Hc).
  destruct (H l sc Hl) as (Hpar & Hnd & Hch).
  rewrite <- Hp, <- Hc. split; [|split; [done|]].
  - intros p Hpp. destruct (Hpar p Hpp) as (psc & Hpl & Hin).
    destruct (Hforth p psc Hpl) as (psc' & ? & _ & Hc').
    exists psc'. by rewrite Hc'.
  - intros c Hin. destruct (Hch c Hin) as (csc & Hcl & Hcp).
    destruct (Hforth c csc Hcl) as (csc' & ? & Hp' & _).
    exists csc'. by rewrite Hp'.
Qed.

Lemma linked_alter h s (f : Scope → Scope) :
  (∀ sc, shape (f sc) = shape sc) → linked h → linked (alter f s h).
Proof.
  intros Hf. apply linked_ext. intros l. rewrite list_lookup_alter.
  case_decide; subst; [|done]. destruct (h !! l); simpl; [|done]. by rewrite Hf.
Qed.

Lemma tree_heap_alter h s (f : Scope → Scope) :
  (∀ sc, shape (f sc) = shape sc) → tree_heap h → tree_heap (alter f s h).
Proof.
  intros Hf [Hwf Hl]. split.
  - apply wf_heap_alter; [|done]. intros sc. by injection (Hf sc).
  - by apply linked_alter.
Qed.

Lemma linked_snoc_root h sc0 :
  parent sc0 = None → children sc0 = [] → linked h → linked (h ++ [sc0]).
Proof.
  intros Hp0 Hc0. rewrite !linked_spec. intros H l sc Hl.
  apply lookup_snoc_Some in Hl as [[Hlt Hl] | [-> ->]].
  - destruct (H l sc Hl) as (Hpar & Hnd & Hch). split; [|split; [done|]].
    + intros p Hp. destruct (Hpar p Hp) as (psc & Hpl & Hin).
      exists psc. split; [by apply lookup_app_l_Some | done].
    + intros c Hin. destruct (Hch c Hin) as (csc & Hcl & Hcp).
      exists csc. split; [by apply lookup_app_l_Some | done].
  - rewrite Hp0, Hc0. split; [done|]. split; [constructor|].
    intros c Hin. by apply elem_of_nil in Hin.
Qed.

Lemma createScope_lookup (p : nat) st l :
  p < length (heap st) →
  heap (createScope (Some p) st).2 !! l
  = if decide (l = length (heap st))
    then Some {| children := []; parent := Some p; type := ∅; value := ∅;
                 constraints := []; substitutions := new_Map |}
    else (λ sc, if decide (l = p)
                then with_children sc (children sc ++ [length (heap st)])
                else sc) <$> heap st !! l.
Proof.
  intros Hp. rewrite createScope_run. cbn [snd heap].
  rewrite list_lookup_alter.
  destruct (decide (l = length (heap st))) as [->|Hl].
  - rewrite decide_False by lia. by rewrite list_lookup_middle.
  - destruct (decide (p = l)) as [->|Hpl].
    + rewrite lookup_app_l by done.
      destruct (heap st !! l); simpl; [|done]. by rewrite decide_True.
    + destruct (decide (l < length (heap st))).
      * rewrite lookup_app_l by done.
        destruct (heap st !! l); simpl; [|done]. by rewrite decide_False.
      * rewrite !lookup_ge_None_2; [done| lia |]. rewrite length_app. simpl. lia.
Qed.

Lemma createScope_lookup_old (p : nat) st q qsc :
  p < length (heap st) → heap st !! q = Some qsc →
  heap (createScope (Some p) st).2 !! q
  = Some (if decide (q = p)
          then with_children qsc (children qsc ++ [length (heap st)])
          else qsc).
Proof.
  intros Hp Hq. pose proof (lookup_lt_Some _ _ _ Hq).
  rewrite createScope_lookup by done.
  rewrite decide_False by lia. by rewrite Hq.
Qed.

Lemma createScope_lookup_new (p : nat) st :
  p < length (heap st) →
  heap (createScope (Some p) st).2 !! length (heap st)
  = Some {| children := []; parent := Some p; type := ∅; value := ∅;
            constraints := []; substitutions := new_Map |}.
Proof.
  intros Hp. rewrite createScope_lookup by done. by rewrite decide_True.
Qed.

Lemma linked_createScope (p : nat) st :
  p < length (heap st) → linked (heap st) → linked (heap (createScope (Some p) st).2).
Proof.
  intros Hp. rewrite !linked_spec. intros H l sc' Hl'.
  assert (∀ q qsc, heap st !! q = Some qsc →
            ∃ qsc', heap (createScope (Some p) st).2 !! q = Some qsc'
                    ∧ parent qsc' = parent qsc
                    ∧ ∀ c, c ∈ children qsc → c ∈ children qsc') as Hforth.
  { intros q qsc Hq. eexists. split; [by apply createScope_lookup_old|].
    destruct (decide (q = p)); simpl; split; try done.
    intros c Hc. apply elem_of_app. by left. }
  destruct (lookup_lt_is_Some_2 _ _ Hp) as [psc Hpl].
  rewrite createScope_lookup in Hl' by done.
  destruct (decide (l = length (heap st))) as [->|Hln].
  - injection Hl' as <-. simpl. split; [|split; [constructor|]].
    + intros ? [= <-]. eexists. split; [by apply createScope_lookup_old|].
      rewrite decide_True by done. simpl.
      apply elem_of_app. right. by apply list_elem_of_singleton.
    + intros c Hin. by apply elem_of_nil in Hin.
  - destruct (heap st !! l) as [sc|] eqn:Hl; [|done]. simpl in Hl'.
    injection Hl' as <-.
    destruct (H l sc Hl) as (Hpar & Hnd & Hch).
    assert (∀ c, c ∈ children sc →
              ∃ csc, heap (createScope (Some p) st).2 !! c = Some csc
                     ∧ parent csc = Some l) as Hold.
    { intros c Hin. destruct (Hch c Hin) as (csc & Hcl & Hcp).
      destruct (Hforth c csc Hcl) as (csc' & ? & Hp' & _).
      exists csc'. by rewrite Hp'. }
    split; [|split].
    + intros q Hq.
      assert (parent sc = Some q) as Hq' by (by destruct (decide (l = p))).
      destruct (Hpar q Hq') as (qsc & Hql & Hin).
      destruct (Hforth q qsc Hql) as (qsc' & ? & _ & Hsub). eauto.
    + destruct (decide (l = p)); [|done]. simpl.
      apply NoDup_app. split; [done|]. split; [|apply NoDup_singleton].
      intros c Hin ->%list_elem_of_singleton.
      destruct (Hch _ Hin) as (csc & Hcl & _).
      apply lookup_lt_Some in Hcl. lia.
    + destruct (decide (l = p)) as [->|]; [|done]. simpl.
      intros c [Hin | ->%list_elem_of_singleton]%elem_of_app; [by apply Hold|].
      eexists. split; [by apply createScope_lookup_new|]. done.
Qed.

(** X11: every operation keeps the scope tree in shape.  If parents
    are allocated before their children, every scope with a parent is
    listed among that parent's children, and every child list is without
    repetition and lists only scopes that name the list's owner as their
    parent, then the same holds after [createRootScope], after
    [createScope] (given an allocated parent, or none), after a
    declaration of a value, a type or a type variable (returning or
    throwing), and after a write to a scope's substitutions. *)
Theorem operations_keep_tree_heap (st : State) :
  tree_heap (heap st) →
  tree_heap (heap (createRootScope st).2)
  ∧ (∀ par, (∀ p, par = Some p → p < length (heap st)) →
            tree_heap (heap (createScope par st).2))
  ∧ (∀ name scope ty, tree_heap (heap (createValueSymbol name scope ty st).2))
  ∧ (∀ name scope oty, tree_heap (heap (createTypeSymbol name scope oty st).2))
  ∧ (∀ scope, tree_heap (heap (createTypeVariable scope st).2))
  ∧ (∀ scope key v, tree_heap (heap (scope_substitutions_set scope key v st).2)).
Proof.
  intros [Hwf Hl]. split; [|split; [|split; [|split; [|split]]]].
  - split; [by apply createRootScope_wf|].
    rewrite createRootScope_run. cbn [snd heap]. by apply linked_snoc_root.
  - intros par Hpar. split; [by apply createScope_wf|].
    destruct par as [p|].
    + apply linked_createScope; [|done]. by apply Hpar.
    + rewrite createScope_run. cbn [snd heap]. by apply linked_snoc_root.
  - intros name scope ty.
    destruct (createValueSymbol_heap name scope ty st) as [->| ->]; [done|].
    by apply tree_heap_alter.
  - intros name scope oty.
    destruct (createTypeSymbol_heap name scope oty st) as [->| ->]; [done|].
    by apply tree_heap_alter.
  - intros scope. rewrite createTypeVariable_run.
    set (name := "t" +:+ pretty (t (nameIds st))).
    set (st1 := {| heap := heap st; nameIds := bump prefix_t (nameIds st) |}).
    destruct (createTypeSymbol_heap name scope (Some (InferenceRequired name)) st1)
      as [Hh|Hh];
      destruct (createTypeSymbol name scope _ st1) as [[?|?|] st2];
      cbn [snd] in *; rewrite Hh; try done; by apply tree_heap_alter.
  - intros scope key v. by apply tree_heap_alter.
Qed.

Lemma operations_keep_tree_heap_witness :
  tree_heap (heap (createScope (Some 1) scenario).2).
Proof.
  destruct (operations_keep_tree_heap scenario) as (_ & Hscope & _).
  - split; by vm_compute.
  - apply Hscope. intros p [= <-]. vm_compute; lia.
Defined.

(** * Dumping a scope tree *)

Section DumpProperties.
Context {D : Type} (dumpNode : option TypeExpression → D).

Lemma tree_heap_child h l sc c :
  tree_heap h → h !! l = Some sc → c ∈ children sc → l < c ∧ c < length h.
Proof.
  intros [Hwf Hlk] Hl Hin.
  destruct (proj1 (linked_spec h) Hlk l sc Hl) as (_ & _ & Hch).
  destruct (Hch c Hin) as (csc & Hc & Hp).
  split; [by eapply wf_heap_parent | by eapply lookup_lt_Some].
Qed.

(** With fuel for the scopes that lie above a location, the dump of
    the scope at that location returns. *)
Lemma dumpScope_rec_total (h : list Scope) (fuel l : nat) :
  tree_heap h → l < length h → (length h - l ≤ fuel)%nat →
  is_Some (dumpScope_rec dumpNode fuel (inl l) h).
Proof.
  intros Htree. revert l. induction fuel as [|fuel IH]; intros l Hlt Hfuel; [lia|].
  destruct (lookup_lt_is_Some_2 h l Hlt) as [sc Hl].
  simpl. rewrite Hl. simpl.
  assert (is_Some (mapM (λ cs, dumpScope_rec dumpNode fuel (inl cs) h) (children sc)))
    as [kids ->]; [|by eexists].
  apply mapM_is_Some_2, Forall_forall. intros c Hin.
  destruct (tree_heap_child h l sc c Htree Hl Hin).
  apply IH; lia.
Qed.

(** More fuel than that changes nothing. *)
Lemma dumpScope_rec_fuel (h : list Scope) (f1 f2 l : nat) :
  tree_heap h → l < length h →
  (length h - l ≤ f1)%nat → (length h - l ≤ f2)%nat →
  dumpScope_rec dumpNode f1 (inl l) h = dumpScope_rec dumpNode f2 (inl l) h.
Proof.
  intros Htree. revert f2 l.
  induction f1 as [|f1 IH]; intros f2 l Hlt H1 H2; [lia|].
  destruct f2 as [|f2]; [lia|].
  destruct (lookup_lt_is_Some_2 h l Hlt) as [sc Hl].
  simpl. rewrite Hl. simpl.
  assert (mapM (λ cs, dumpScope_rec dumpNode f1 (inl cs) h) (children sc)
          = mapM (λ cs, dumpScope_rec dumpNode f2 (inl cs) h) (children sc)) as ->;
    [|done].
  apply Forall_mapM_ext, Forall_forall. intros c Hin.
  destruct (tree_heap_child h l sc c Htree Hl Hin).
  apply IH; lia.
Qed.

(** X12: in a heap of tree shape the dump of an allocated scope always
    returns, and it is the object the source builds: the parent marker
    says only whether there is a parent, the value and type fields have
    the keys of the scope's tables, each symbol rendered as its name, its
    dumped type and the marker ["[omitted]"] in place of the scope, the
    constraints are dumped pairwise in order, and the children field
    holds, in order, the dumps of the children. *)
Theorem dumpScope_of_scope (h : list Scope) (l : nat) (sc : Scope) :
  tree_heap h → h !! l = Some sc →
  ∃ kids,
    dumpScope dumpNode (inl l) h
    = Some (DumpObject
              (match parent sc with Some _ => "[omitted]" | None => "[]" end)
              ((λ s, {| d_name := vs_name s;
                        d_type := dumpNode (Some (vs_type s));
                        d_scope := "[omitted]" |}) <$> value sc)
              ((λ s, {| d_name := ts_name s;
                        d_type := dumpNode (ts_type s);
                        d_scope := "[omitted]" |}) <$> type sc)
              ((λ c, (dumpNode (Some c.1), dumpNode (Some c.2))) <$> constraints sc)
              ((λ e, dumpNode (Some e)) <$> own_props (substitutions sc))
              kids)
    ∧ mapM (λ c, dumpScope dumpNode (inl c) h) (children sc) = Some kids.
Proof.
  intros Htree Hl. pose proof (lookup_lt_Some _ _ _ Hl) as Hlt.
  unfold dumpScope. simpl. rewrite Hl. simpl.
  destruct (mapM (λ cs, dumpScope_rec dumpNode (length h) (inl cs) h) (children sc))
    as [kids|] eqn:Hkids.
  - exists kids. simpl. split.
    + do 2 f_equal.
      * apply (Object_fromEntries_entries
                 (λ s, {| d_name := vs_name s;
                          d_type := dumpNode (Some (vs_type s));
                          d_scope := "[omitted]" |})).
      * apply (Object_fromEntries_entries
                 (λ s, {| d_name := ts_name s;
                          d_type := dumpNode (ts_type s);
                          d_scope := "[omitted]" |})).
      * apply (Object_fromEntries_entries (λ e, dumpNode (Some e))).
    + rewrite <- Hkids. apply Forall_mapM_ext, Forall_forall. intros c Hin.
      destruct (tree_heap_child h l sc c Htree Hl Hin).
      exact (dumpScope_rec_fuel h (S (length h)) (length h) c Htree
               ltac:(lia) ltac:(lia) ltac:(lia)).
  - exfalso. apply mapM_None_1, Exists_exists in Hkids as (c & Hin & Hnone).
    destruct (tree_heap_child h l sc c Htree Hl Hin).
    destruct (dumpScope_rec_total h (length h) c Htree) as [d Hd]; [lia..|].
    congruence.
Qed.

(** X13: the dump of an array of allocated scopes returns an array that
    holds, element by element and in order, the dumps of those scopes. *)
Theorem dumpScope_of_array (h : list Scope) (scopes : list nat) :
  tree_heap h → Forall (λ l, l < length h) scopes →
  ∃ items,
    dumpScope dumpNode (inr scopes) h = Some (DumpArray items)
    ∧ mapM (λ l, dumpScope dumpNode (inl l) h) scopes = Some items
    ∧ length items = length scopes.
Proof.
  intros Htree Hall. unfold dumpScope at 1. simpl.
  assert (mapM (λ s, dumpScope_rec dumpNode (length h) (inl s) h) scopes
          = mapM (λ l, dumpScope dumpNode (inl l) h) scopes) as ->.
  { apply Forall_mapM_ext. eapply Forall_impl; [exact Hall|].
    intros l Hl. simpl in Hl.
    exact (dumpScope_rec_fuel h (length h) (S (length h)) l Htree
             ltac:(lia) ltac:(lia) ltac:(lia)). }
  assert (is_Some (mapM (λ l, dumpScope dumpNode (inl l) h) scopes)) as [items Hitems].
  { apply mapM_is_Some_2. eapply Forall_impl; [exact Hall|].
    intros l Hl. simpl in Hl.
    exact (dumpScope_rec_total h (S (length h)) l Htree ltac:(lia) ltac:(lia)). }
  exists items. rewrite Hitems. split; [done|]. split; [done|].
  symmetry. by eapply length_mapM.
Qed.

End DumpProperties.

Lemma dumpScope_of_scope_witness :
  ∃ kids,
    dumpScope id (inl 0) (heap scenario) ≫= dump_substitutions = Some ∅
    ∧ mapM (λ c, dumpScope id (inl c) (heap scenario)) [1] = Some kids.
Proof.
  destruct (dumpScope_of_scope id (heap scenario) 0
    {| value := ∅; children := [1]; parent := None;
       type := <["boolean" := createNativeTypeSymbol KindBoolean 0]>
               (<["number" := createNativeTypeSymbol KindNumber 0]>
               (<["string" := createNativeTypeSymbol KindString 0]> ∅));
       constraints := []; substitutions := new_Map |})
    as (kids & Hdump & Hkids).
  - split; by vm_compute.
  - by vm_compute.
  - exists kids. rewrite Hdump. split; [|exact Hkids]. done.
Defined.

Lemma dumpScope_of_array_witness :
  ∃ items, dumpScope id (inr [1; 0]) (heap scenario) = Some (DumpArray items)
           ∧ length items = 2.
Proof.
  destruct (dumpScope_of_array id (heap scenario) [1; 0]) as (items & Hd & _ & Hlen).
  - split; by vm_compute.
  - repeat constructor; vm_compute; lia.
  - by exists items.
Defined.

(** * Further properties of the allocator and of the substitution store *)

Lemma allocated_name_inj p q (a b : N) :
  prefix_string p +:+ pretty a = prefix_string q +:+ pretty b → p = q ∧ a = b.
Proof.
  intros H.
  assert (p = q) as <-.
  { apply (f_equal (λ s, match s with String c _ => Some c | EmptyString => None end))
      in H.
    by destruct p, q. }
  split; [done|].
  apply (inj (String.append _)) in H. by apply (inj pretty) in H.
Qed.

Lemma calls_mixed_run prefixes st :
  (∀ p, counter p (nameIds st) + N.of_nat (count_prefix p prefixes)
        ≤ number_limit + 1)%N →
  ∃ names ids',
    calls_mixed prefixes st = (Returned names, {| heap := heap st; nameIds := ids' |})
    ∧ length names = length prefixes
    ∧ Forall (still_free (nameIds st) prefixes) names
    ∧ NoDup names.
Proof.
  revert st. induction prefixes as [|prefix rest IH]; intros st Hroom.
  - exists [], (nameIds st). destruct st.
    split; [reflexivity|]. split; [reflexivity|]. split; constructor.
  - simpl calls_mixed. unfold bind at 1. rewrite findAvailableName_run.
    set (p := default prefix_t prefix) in *.
    set (st1 := {| heap := heap st; nameIds := bump p (nameIds st) |}).
    pose proof (Hroom p) as Hp. simpl in Hp. fold p in Hp.
    rewrite decide_True in Hp by done.
    destruct (IH st1) as (names & ids' & Hrun & Hlen & Hfree & Hnd).
    { intros q. cbn [st1 nameIds]. specialize (Hroom q). simpl in Hroom.
      fold p in Hroom. destruct (decide (p = q)) as [<-|Hne].
      - destruct (decide (counter p (nameIds st) < number_limit)%N).
        + rewrite counter_bump_below by done. lia.
        + rewrite counter_bump, increment_at_limit by lia. lia.
      - rewrite counter_bump_other by done. lia. }
    unfold bind at 1. rewrite Hrun. unfold ret.
    eexists _, ids'. split; [done|]. split; [simpl; by rewrite Hlen|].
    split; [|].
    + constructor.
      * exists p, (counter p (nameIds st)). split; [done|]. split; [lia|].
        simpl. fold p. rewrite decide_True by done. lia.
      * eapply Forall_impl; [exact Hfree|].
        intros name (q & c & -> & Hc & Hq). exists q, c. split; [done|].
        cbn [st1 nameIds] in Hc. split.
        -- destruct (decide (p = q)) as [<-|Hne].
           ++ rewrite counter_bump in Hc.
              pose proof (increment_mono (counter p (nameIds st))). lia.
           ++ by rewrite counter_bump_other in Hc.
        -- simpl. lia.
    + constructor; [|done]. intros Hin.
      rewrite Forall_forall in Hfree.
      destruct (Hfree _ Hin) as (q & c & Heq & Hc & Hq).
      apply allocated_name_inj in Heq as [<- <-].
      cbn [st1 nameIds] in Hc. rewrite counter_bump_below in Hc by lia. lia.
Qed.

(** X14: whatever the order in which the two prefixes are asked for, the
    allocator hands out no name twice as long as no counter is asked to
    go past 2^53: a sequence of calls in which, for each prefix, the
    counter plus the number of calls with that prefix is at most
    2^53 + 1 returns as many names as there were calls, all different,
    and leaves the heap alone. *)
Theorem allocator_never_repeats (prefixes : list (option Prefix)) (st : State) :
  (∀ p, counter p (nameIds st) + N.of_nat (count_prefix p prefixes)
        ≤ number_limit + 1)%N →
  ∃ names st',
    calls_mixed prefixes st = (Returned names, st')
    ∧ length names = length prefixes
    ∧ NoDup names
    ∧ heap st' = heap st.
Proof.
  intros Hroom.
  destruct (calls_mixed_run prefixes st Hroom)
    as (names & ids' & Hrun & Hlen & _ & Hnd).
  by exists names, {| heap := heap st; nameIds := ids' |}.
Qed.

Lemma allocator_never_repeats_witness :
  ∃ names st',
    calls_mixed [Some prefix_fn; None; Some prefix_t; Some prefix_fn] scenario
    = (Returned names, st')
    ∧ NoDup names.
Proof.
  destruct (allocator_never_repeats
              [Some prefix_fn; None; Some prefix_t; Some prefix_fn] scenario)
    as (names & st' & Hrun & _ & Hnd & _).
  - intros []; by vm_compute.
  - by exists names, st'.
Defined.

(** ** The substitution store *)

Lemma data_get_set_other n1 n2 v data :
  n1 ≠ n2 →
  data_get (KeyStr n2) (data_set (KeyStr n1) v data) = data_get (KeyStr n2) data.
Proof.
  intros Hne. induction data as [|[k w] rest IH]; simpl.
  - by rewrite bool_decide_eq_false_2.
  - destruct (same_key k (KeyStr n1)) eqn:E1; simpl.
    + destruct k as [s|]; [|done]. simpl in *.
      apply bool_decide_eq_true in E1 as ->.
      by rewrite bool_decide_eq_false_2.
    + by rewrite IH.
Qed.

Lemma Substitution_set_frame (k1 k2 : MapKey) (v : TypeExpression) (m : MapObject) :
  finalKey k1 ≠ finalKey k2 →
  Substitution_get k2 (Substitution_set k1 v m).1 = Substitution_get k2 m.
Proof.
  intros Hne. unfold Substitution_get, Substitution_set.
  destruct (falsy (finalKey k1)) eqn:F1; [done|].
  destruct (falsy (finalKey k2)) eqn:F2; [done|].
  destruct (finalKey k1) as [n1|], (finalKey k2) as [n2|]; try done.
  simpl. unfold Map_get, Map_set. simpl.
  apply data_get_set_other. congruence.
Qed.

(** X15: keys that normalize to different names do not interfere: a
    [set] under one key changes neither [get] nor [has] under a key
    with another name (or with none). *)
Theorem Substitution_set_keeps_other_keys
    (k1 k2 : MapKey) (v : TypeExpression) (m : MapObject) :
  finalKey k1 ≠ finalKey k2 →
  Substitution_get k2 (Substitution_set k1 v m).1 = Substitution_get k2 m
  ∧ Substitution_has k2 (Substitution_set k1 v m).1 = Substitution_has k2 m.
Proof.
  intros Hne. split; [by apply Substitution_set_frame|].
  pose proof (Substitution_set_frame k1 k2 v m Hne) as Hget.
  unfold Substitution_has, Substitution_get in *.
  destruct (falsy (finalKey k2)); [done|].
  unfold Map_has. unfold Map_get in Hget. by rewrite Hget.
Qed.

Lemma Substitution_set_keeps_other_keys_witness :
  let m := (Substitution_set (KeyStr "t1") (NativeType KindNumber) new_Substitution).1 in
  Substitution_get (KeyStr "t1")
    (Substitution_set (KeyObj 3 (InferenceRequired "t2")) (NativeType KindString) m).1
  = Substitution_get (KeyStr "t1") m.
Proof.
  intros m.
  apply (Substitution_set_keeps_other_keys
           (KeyObj 3 (InferenceRequired "t2")) (KeyStr "t1") (NativeType KindString) m).
  by vm_compute.
Defined.

Lemma data_set_length_present key v data :
  is_Some (data_get key data) → length (data_set key v data) = length data.
Proof.
  induction data as [|[k w] rest IH]; simpl; [by intros [? ?]|].
  destruct (same_key k key); simpl; [done|]. intros H. by rewrite IH.
Qed.

(** X16: two keys that carry the same non-empty name share one entry:
    after a [set] under the first and a [set] under the second, [get]
    under either returns the second value, and the second [set] has added
    no entry to the map. *)
Theorem Substitution_same_name_collides
    (k1 k2 : MapKey) (n : string) (v1 v2 : TypeExpression) (m : MapObject) :
  finalKey k1 = Some n → finalKey k2 = Some n → n ≠ "" →
  let m1 := (Substitution_set k1 v1 m).1 in
  let m2 := (Substitution_set k2 v2 m1).1 in
  Substitution_get k1 m2 = Some v2
  ∧ Substitution_get k2 m2 = Some v2
  ∧ length (map_data m2) = length (map_data m1).
Proof.
  intros H1 H2 Hn m1 m2. unfold m2, m1.
  unfold Substitution_get, Substitution_set. rewrite H1, H2, (falsy_named n Hn).
  simpl. rewrite !Map_get_set_same. split; [done|]. split; [done|].
  apply data_set_length_present. rewrite data_get_set_same. by eexists.
Qed.

Lemma Substitution_same_name_collides_witness :
  let m1 := (Substitution_set (KeyObj 1 (InferenceRequired "t3"))
               (NativeType KindNumber) new_Substitution).1 in
  let m2 := (Substitution_set (KeyObj 2 (OtherNode "Identifier" (Some "t3")))
               (NativeType KindString) m1).1 in
  Substitution_get (KeyObj 1 (InferenceRequired "t3")) m2 = Some (NativeType KindString)
  ∧ Substitution_get (KeyObj 2 (OtherNode "Identifier" (Some "t3"))) m2
    = Some (NativeType KindString)
  ∧ length (map_data m2) = length (map_data m1).
Proof.
  apply (Substitution_same_name_collides
           (KeyObj 1 (InferenceRequired "t3"))
           (KeyObj 2 (OtherNode "Identifier" (Some "t3")))
           "t3" (NativeType KindNumber) (NativeType KindString) new_Substitution);
    by vm_compute.
Defined.

Lemma data_set_keys key v data x :
  x ∈ (data_set key v data).*1 → x ∈ data.*1 ∨ x = key.
Proof.
  induction data as [|[k w] rest IH]; simpl.
  - intros ->%list_elem_of_singleton. by right.
  - destruct (same_key k key); simpl.
    + intros H. by left.
    + intros [->|H]%elem_of_cons.
      * left. by left.
      * destruct (IH H) as [?|?]; [left; by right | by right].
Qed.

Lemma same_key_string k n : same_key k (KeyStr n) = true ↔ k = KeyStr n.
Proof.
  destruct k as [s|r e]; simpl; [|done].
  rewrite bool_decide_eq_true. split; congruence.
Qed.

Lemma data_set_NoDup n v data :
  NoDup data.*1 → NoDup (data_set (KeyStr n) v data).*1.
Proof.
  induction data as [|[k w] rest IH]; simpl.
  - intros _. apply NoDup_singleton.
  - intros [Hk Hnd]%NoDup_cons.
    destruct (same_key k (KeyStr n)) eqn:E; simpl.
    + by apply NoDup_cons.
    + apply NoDup_cons. split; [|by apply IH].
      intros [Hin| ->]%data_set_keys; [done|].
      by rewrite (proj2 (same_key_string _ _) eq_refl) in E.
Qed.

Lemma Substitution_sets_snoc ops key v m :
  Substitution_sets (ops ++ [(key, v)]) m
  = (Substitution_set key v (Substitution_sets ops m)).1.
Proof. unfold Substitution_sets. by rewrite foldl_app. Qed.

Lemma last_write_snoc n ops key v :
  last_write n (ops ++ [(key, v)])
  = if decide (finalKey key = Some n) then Some v else last_write n ops.
Proof. unfold last_write. by rewrite foldl_app. Qed.

(** X17: a store that starts empty and is only written through
    [Substitution.set] holds nothing but non-empty strings as keys, each
    of them once, whatever keys and values the calls were given. *)
Theorem Substitution_keys_are_names (ops : list (MapKey * TypeExpression)) :
  let m := Substitution_sets ops new_Substitution in
  Forall (λ k, ∃ n, k = KeyStr n ∧ n ≠ "") (map_data m).*1
  ∧ NoDup (map_data m).*1
  ∧ (length (map_data m) ≤ length ops)%nat.
Proof.
  induction ops as [|[key v] ops IH] using rev_ind; simpl.
  - split; [constructor|]. split; [constructor | done].
  - destruct IH as (Hall & Hnd & Hlen).
    rewrite Substitution_sets_snoc, length_app. simpl.
    set (m := Substitution_sets ops new_Substitution) in *.
    unfold Substitution_set.
    destruct (falsy (finalKey key)) eqn:F; simpl; [split; [done|]; split; [done|lia]|].
    destruct (finalKey key) as [n|]; [|done]. simpl in F.
    apply bool_decide_eq_false in F. simpl.
    split; [|split].
    + apply Forall_forall. intros x [Hin| ->]%data_set_keys; [|eauto].
      rewrite Forall_forall in Hall. by apply Hall.
    + by apply data_set_NoDup.
    + assert (∀ d, length (data_set (KeyStr n) v d) ≤ S (length d))%nat as Hgrow.
      { intros d. induction d as [|[k w] d IHd]; simpl; [lia|].
        destruct (same_key k (KeyStr n)); simpl; lia. }
      specialize (Hgrow (map_data m)). lia.
Qed.

(** X18: last write wins.  After any sequence of [set] calls on an
    empty store, [get] under a non-empty name returns the value of the
    last call whose key carried that name, and [undefined] if there was
    none; [has] answers accordingly. *)
Theorem Substitution_get_last_write
    (ops : list (MapKey * TypeExpression)) (n : string) :
  n ≠ "" →
  Substitution_get (KeyStr n) (Substitution_sets ops new_Substitution)
  = last_write n ops
  ∧ Substitution_has (KeyStr n) (Substitution_sets ops new_Substitution)
    = bool_decide (is_Some (last_write n ops)).
Proof.
  intros Hn.
  assert (Substitution_get (KeyStr n) (Substitution_sets ops new_Substitution)
          = last_write n ops) as Hget.
  { induction ops as [|[key v] ops IH] using rev_ind.
    { unfold Substitution_get. cbv zeta. simpl finalKey.
      by rewrite (falsy_named n Hn). }
    rewrite Substitution_sets_snoc, last_write_snoc.
    case_decide as Hk.
    - unfold Substitution_get, Substitution_set. cbv zeta.
      rewrite Hk. simpl finalKey. rewrite !(falsy_named n Hn). simpl.
      apply Map_get_set_same.
    - rewrite <- IH.
      apply Substitution_set_frame. simpl. congruence. }
  split; [done|].
  unfold Substitution_has. unfold Substitution_get in Hget.
  simpl finalKey in *. rewrite (falsy_named n Hn) in *. simpl in *.
  unfold Map_has. unfold Map_get in Hget. by rewrite Hget.
Qed.

Lemma Substitution_get_last_write_witness :
  Substitution_get (KeyStr "t1")
    (Substitution_sets
       [ (KeyStr "t1", NativeType KindNumber);
         (KeyObj 5 (NativeType KindBoolean), NativeType KindBoolean);
         (KeyObj 6 (InferenceRequired "t1"), NativeType KindString);
         (KeyStr "t2", NativeType KindNumber) ]
       new_Substitution)
  = Some (NativeType KindString).
Proof.
  destruct (Substitution_get_last_write
    [ (KeyStr "t1", NativeType KindNumber);
      (KeyObj 5 (NativeType KindBoolean), NativeType KindBoolean);
      (KeyObj 6 (InferenceRequired "t1"), NativeType KindString);
      (KeyStr "t2", NativeType KindNumber) ] "t1") as [Hget _].
  - by vm_compute.
  - exact Hget.
Defined.

(** * Several type variables in a row *)

Lemma name_at_succ p (c : N) i : name_at p (c + 1) i = name_at p c (S i).
Proof. unfold name_at. do 2 f_equal. lia. Qed.

Lemma name_at_zero p (c : N) : name_at p c 0 = prefix_string p +:+ pretty c.
Proof. unfold name_at. by rewrite N.add_0_r. Qed.

Lemma find_not_stuck {V} (tbl : Scope → gmap string V) h name l r :
  chain_find tbl (length h) name l h = Some r → is_Some (h !! l).
Proof.
  destruct (length h); [done|]. simpl. destruct (h !! l); [eauto | done].
Qed.

Lemma createTypeVariable_fresh scope st :
  let name := "t" +:+ pretty (t (nameIds st)) in
  findTypeSymbol name scope (heap st) = Some None →
  createTypeVariable scope st
  = (Returned (InferenceRequired name),
     {| heap := alter (λ sc, with_type sc
                         (<[name := type_variable_symbol scope name]> (type sc)))
                      scope (heap st);
        nameIds := bump prefix_t (nameIds st) |}).
Proof.
  intros name Hfind. rewrite createTypeVariable_run. fold name.
  rewrite createTypeSymbol_run. cbn [heap nameIds]. by rewrite Hfind.
Qed.

Lemma createTypeVariables_run n scope st :
  let c := t (nameIds st) in
  (c + N.of_nat n ≤ number_limit)%N →
  (∀ i, i < n → findTypeSymbol (name_at prefix_t c i) scope (heap st) = Some None) →
  ∃ h',
    createTypeVariables n scope st
    = (Returned ((λ i, InferenceRequired (name_at prefix_t c i)) <$> seq 0 n),
       {| heap := h';
          nameIds := {| t := c + N.of_nat n; fn := fn (nameIds st) |} |})
    ∧ length h' = length (heap st)
    ∧ (∀ name l, (∀ i, i < n → name ≠ name_at prefix_t c i) →
         findTypeSymbol name l h' = findTypeSymbol name l (heap st))
    ∧ (∀ i, i < n →
         findTypeSymbol (name_at prefix_t c i) scope h'
         = Some (Some (Own (type_variable_symbol scope (name_at prefix_t c i))))).
Proof.
  revert st. induction n as [|n IH]; intros st c Hrange Hfree.
  - exists (heap st). split; [|split; [done|split; [done|intros; lia]]].
    destruct st as [h [ct cf]]. unfold c. simpl. by rewrite N.add_0_r.
  - pose proof (Hfree 0 ltac:(lia)) as H0. rewrite name_at_zero in H0.
    simpl prefix_string in H0.
    set (name0 := "t" +:+ pretty c) in *.
    set (h1 := alter (λ sc, with_type sc
                        (<[name0 := type_variable_symbol scope name0]> (type sc)))
                     scope (heap st)).
    assert (bump prefix_t (nameIds st) = {| t := c + 1; fn := fn (nameIds st) |})
      as Hbump.
    { unfold bump. rewrite increment_below; [done|]. unfold c in Hrange. lia. }
    set (st1 := {| heap := h1; nameIds := {| t := c + 1; fn := fn (nameIds st) |} |}).
    assert (createTypeVariable scope st = (Returned (InferenceRequired name0), st1))
      as Hfirst.
    { unfold st1. rewrite <- Hbump. by apply createTypeVariable_fresh. }
    assert (∀ name l, name ≠ name0 →
              findTypeSymbol name l h1 = findTypeSymbol name l (heap st)) as Hframe1.
    { intros name l Hne. rewrite !findTypeSymbol_chain. unfold h1.
      rewrite length_alter. apply chain_find_alter. intros sc. split; [|done].
      simpl. by apply lookup_insert_ne. }
    assert (name0 = name_at prefix_t c 0) as Hname0
      by (symmetry; apply name_at_zero).
    assert (∀ i, name_at prefix_t c (S i) ≠ name0) as Hdiff.
    { intros i. rewrite Hname0.
      intros Heq. by apply (inj (name_at prefix_t c)) in Heq. }
    destruct (IH st1) as (h' & Hrun & Hlen & Hframe & Hfound).
    { cbn [st1 nameIds t]. lia. }
    { intros i Hi. cbn [st1 nameIds heap t].
      rewrite name_at_succ, Hframe1 by apply Hdiff. apply Hfree. lia. }
    cbn [st1 nameIds heap t fn] in Hrun, Hlen, Hframe, Hfound.
    fold c in Hrun, Hframe, Hfound.
    exists h'. split; [|split; [|split]].
    + simpl createTypeVariables. unfold bind at 1. rewrite Hfirst.
      unfold bind at 1. rewrite Hrun. unfold ret. f_equal.
      * f_equal. simpl. f_equal; [by rewrite Hname0|].
        rewrite <- fmap_S_seq, <- list_fmap_compose.
        apply list_fmap_ext. intros _ i _. simpl. by rewrite name_at_succ.
      * do 2 f_equal. lia.
    + rewrite Hlen. unfold h1. apply length_alter.
    + intros name l Hne. rewrite Hframe.
      * apply Hframe1. rewrite Hname0. apply Hne. lia.
      * intros i Hi. rewrite name_at_succ. apply Hne. lia.
    + intros [|i] Hi.
      * rewrite <- Hname0.
        rewrite Hframe.
        -- rewrite findTypeSymbol_chain in H0.
           destruct (find_not_stuck _ _ _ _ _ H0) as [sc Hsc].
           rewrite findTypeSymbol_chain.
           eapply lookup_own_after_insert.
           ++ unfold h1. by rewrite list_lookup_alter_eq, Hsc.
           ++ simpl. apply lookup_insert_eq.
        -- intros j Hj. rewrite name_at_succ. intros Heq. by apply (Hdiff j).
      * rewrite <- name_at_succ. apply Hfound. lia.
Qed.

Lemma unbound_find_nothing {V} (tbl : Scope → gmap string V) h name l :
  wf_heap h → l < length h → name ∉ Object_prototype_keys →
  ¬ bound tbl h name l → chain_find tbl (length h) name l h = Some None.
Proof.
  intros Hwf Hlt Hn Hnb.
  destruct (chain_find_found_iff tbl h name l Hwf Hlt) as (r & -> & Hiff).
  destruct r as [x|]; [|done].
  destruct (proj1 Hiff ltac:(eauto)) as [?|?]; done.
Qed.

(** X19: [n] type variables made one after the other in one scope.  In
    a well-formed heap, if the ["t"] counter plus [n] is at most 2^53 and
    none of the next [n] names of that counter is declared as a type in
    the scope or an ancestor, every call returns, the expressions
    returned carry [n] different names (consecutive counter values), the
    counter has advanced by [n], and afterwards the type lookup of each
    of these names from the scope returns a symbol holding the expression
    of that name. *)
Theorem createTypeVariables_all_registered (n scope : nat) (st : State) :
  wf_heap (heap st) → scope < length (heap st) →
  (t (nameIds st) + N.of_nat n ≤ number_limit)%N →
  (∀ i, i < n →
     ¬ type_bound (heap st) (name_at prefix_t (t (nameIds st)) i) scope) →
  ∃ st',
    createTypeVariables n scope st
    = (Returned ((λ i, InferenceRequired (name_at prefix_t (t (nameIds st)) i))
                   <$> seq 0 n), st')
    ∧ NoDup ((λ i, InferenceRequired (name_at prefix_t (t (nameIds st)) i))
               <$> seq 0 n)
    ∧ t (nameIds st') = (t (nameIds st) + N.of_nat n)%N
    ∧ (∀ i, i < n →
         findTypeSymbol (name_at prefix_t (t (nameIds st)) i) scope (heap st')
         = Some (Some (Own (type_variable_symbol scope
                              (name_at prefix_t (t (nameIds st)) i))))).
Proof.
  intros Hwf Hlt Hrange Hfree.
  destruct (createTypeVariables_run n scope st) as (h' & Hrun & _ & _ & Hfound).
  { done. }
  { intros i Hi. rewrite findTypeSymbol_chain.
    apply unbound_find_nothing; [done|done| |by apply Hfree].
    apply fresh_name_not_inherited. }
  eexists. split; [exact Hrun|]. split; [|split; [done|exact Hfound]].
  apply NoDup_fmap_2; [|apply NoDup_seq].
  intros i j Heq. apply (inj (name_at prefix_t (t (nameIds st)))). congruence.
Qed.

Lemma createTypeVariables_all_registered_witness :
  ∃ st',
    createTypeVariables 3 1 scenario
    = (Returned [InferenceRequired "t0"; InferenceRequired "t1"; InferenceRequired "t2"],
       st')
    ∧ t (nameIds st') = 3%N.
Proof.
  destruct (createTypeVariables_all_registered 3 1 scenario)
    as (st' & Hrun & _ & Hcount & _).
  - by vm_compute.
  - vm_compute; lia.
  - by vm_compute.
  - intros i Hi. apply (find_nothing_unbound type); [by vm_compute | vm_compute; lia |].
    destruct i as [|[|[|i]]]; [by vm_compute.. | lia].
  - exists st'. split; [exact Hrun | exact Hcount].
Defined.

(** * Scopes only grow *)

Lemma grows_refl sc : grows sc sc.
Proof. by repeat split. Qed.

Lemma find_nothing_own {V} (tbl : Scope → gmap string V) h name l sc :
  chain_find tbl (length h) name l h = Some None → h !! l = Some sc →
  tbl sc !! name = None.
Proof.
  intros Hfind Hl. destruct (length h); [done|]. simpl in Hfind.
  rewrite Hl in Hfind. unfold js_in, js_get in Hfind.
  destruct (tbl sc !! name); [|done].
  by rewrite bool_decide_eq_true_2 in Hfind by eauto.
Qed.

Lemma createValueSymbol_grows name scope ty st l sc :
  heap st !! l = Some sc →
  ∃ sc', heap (createValueSymbol name scope ty st).2 !! l = Some sc' ∧ grows sc sc'.
Proof.
  intros Hl. rewrite createValueSymbol_run.
  destruct (findValueSymbol name scope (heap st)) as [[?|]|] eqn:Hfind;
    [exists sc; split; [done | apply grows_refl] |
    |exists sc; split; [done | apply grows_refl]].
  cbn [snd heap]. rewrite list_lookup_alter.
  case_decide as Hs; subst; rewrite Hl; simpl; eexists;
    (split; [reflexivity|]); [|apply grows_refl].
  rewrite findValueSymbol_chain in Hfind.
  pose proof (find_nothing_own value _ _ _ _ Hfind Hl) as Hnone.
  repeat split; try done. simpl. by apply insert_subseteq.
Qed.

Lemma createTypeSymbol_grows name scope oty st l sc :
  heap st !! l = Some sc →
  ∃ sc', heap (createTypeSymbol name scope oty st).2 !! l = Some sc' ∧ grows sc sc'.
Proof.
  intros Hl. rewrite createTypeSymbol_run.
  destruct (findTypeSymbol name scope (heap st)) as [[?|]|] eqn:Hfind;
    [exists sc; split; [done | apply grows_refl] |
    |exists sc; split; [done | apply grows_refl]].
  cbn [snd heap]. rewrite list_lookup_alter.
  case_decide as Hs; subst; rewrite Hl; simpl; eexists;
    (split; [reflexivity|]); [|apply grows_refl].
  rewrite findTypeSymbol_chain in Hfind.
  pose proof (find_nothing_own type _ _ _ _ Hfind Hl) as Hnone.
  repeat split; try done. simpl. by apply insert_subseteq.
Qed.

Lemma createScope_grows (par : option nat) st l sc :
  heap st !! l = Some sc →
  ∃ sc', heap (createScope par st).2 !! l = Some sc' ∧ grows sc sc'.
Proof.
  intros Hl. rewrite createScope_run. cbn [snd heap].
  pose proof (lookup_app_l_Some _
    [ {| children := []; parent := par; type := ∅; value := ∅;
         constraints := []; substitutions := new_Map |} ] _ _ Hl) as Hl'.
  destruct par as [p|]; [|exists sc; split; [done | apply grows_refl]].
  rewrite list_lookup_alter. case_decide; subst; rewrite Hl'; simpl;
    eexists; (split; [reflexivity|]); [|apply grows_refl].
  repeat split; try done. simpl. by apply prefix_app_r.
Qed.

(** X20: no operation removes or changes what a scope holds.  After
    [createRootScope], [createScope], a declaration of a value, of a type
    or of a type variable (returning or throwing), a scope that was
    allocated is still there, every symbol of its two tables is still
    bound to the same symbol, its list of children is the old one with at
    most new scopes at the end, and its parent, constraints and
    substitutions are the same. *)
Theorem scopes_only_grow (st : State) (l : nat) (sc : Scope) :
  heap st !! l = Some sc →
  (∃ sc', heap (createRootScope st).2 !! l = Some sc' ∧ grows sc sc')
  ∧ (∀ par, ∃ sc', heap (createScope par st).2 !! l = Some sc' ∧ grows sc sc')
  ∧ (∀ name scope ty,
       ∃ sc', heap (createValueSymbol name scope ty st).2 !! l = Some sc'
              ∧ grows sc sc')
  ∧ (∀ name scope oty,
       ∃ sc', heap (createTypeSymbol name scope oty st).2 !! l = Some sc'
              ∧ grows sc sc')
  ∧ (∀ scope,
       ∃ sc', heap (createTypeVariable scope st).2 !! l = Some sc' ∧ grows sc sc').
Proof.
  intros Hl. split; [|split; [|split; [|split]]].
  - exists sc. split; [|apply grows_refl].
    rewrite createRootScope_run. cbn [snd heap]. by apply lookup_app_l_Some.
  - intros par. by apply createScope_grows.
  - intros name scope ty. by apply createValueSymbol_grows.
  - intros name scope oty. by apply createTypeSymbol_grows.
  - intros scope. rewrite createTypeVariable_run.
    set (name := "t" +:+ pretty (t (nameIds st))).
    set (st1 := {| heap := heap st; nameIds := bump prefix_t (nameIds st) |}).
    destruct (createTypeSymbol_grows name scope (Some (InferenceRequired name))
                st1 l sc Hl) as (sc' & Hl' & Hg).
    exists sc'. split; [|done].
    by destruct (createTypeSymbol name scope _ st1) as [[?|?|] ?].
Qed.

Lemma scopes_only_grow_witness :
  ∃ sc', heap (createValueSymbol "y" 1 (NativeType KindString) scenario).2 !! 1
         = Some sc'
         ∧ value sc' !! "x"
           = Some {| vs_name := "x"; vs_type := NativeType KindNumber; vs_scope := 1 |}.
Proof.
  destruct (scopes_only_grow scenario 1
    {| value := {[ "x" := {| vs_name := "x"; vs_type := NativeType KindNumber;
                             vs_scope := 1 |} ]};
       children := []; parent := Some 0; type := ∅; constraints := [];
       substitutions := new_Map |}) as (_ & _ & Hvalue & _).
  - by vm_compute.
  - destruct (Hvalue "y" 1 (NativeType KindString)) as (sc' & Hl & Hsub & _).
    exists sc'. split; [exact Hl|].
    eapply lookup_weaken; [|exact Hsub]. by vm_compute.
Defined.
